(** * patch_cursor_get_machine_id.py: a shallow embedding and its properties

    The model follows the source file top to bottom:
    - Python text ([str]) as a list of Unicode code points;
    - the part of the [re] module the script relies on ([re.match],
      [re.sub], greedy [+], one capture group, [^] and [$]), and the two
      patch rules;
    - exceptions, outcomes and the logger;
    - [int], [str.split] and tuple comparison, then [version_check];
    - [os.path.join] in its POSIX and Windows flavours, then
      [get_cursor_paths] and [check_system_requirements];
    - a file system of directories and regular files, with injected
      faults, then [modify_main_js].

    After the model come the words the properties are stated in
    (well-formed versions, the lexicographic order, the states of a run),
    example hosts and files, and the properties themselves.

    Conventions.  A Python exception is a value of [exn]; a computation
    that may raise returns an [outcome] together with the state it leaves.
    The questions a function asks about paths and its calls to [logger]
    are recorded, in order, as a list of events.  What the script gets from
    its surroundings is a parameter: the Unicode database outside ASCII,
    the host ([platform.system], the environment, the path predicates),
    the codecs of text files, the name of the temporary file, whether
    [os.rename] works from the temporary directory, and the one step of a
    run that fails for a reason outside the files.  Integers are unbounded; the limit the
    interpreter puts on the number of digits [int] converts
    ([sys.get_int_max_str_digits()]) is a parameter as well. *)

From Stdlib Require Import NArith ZArith List String Ascii Bool Lia.
From stdpp Require Import gmap.

Local Open Scope N_scope.

(** ** Text *)

(** A Python [str] is a sequence of code points. *)
Abbreviation pystr := (list N).

(** [py "..."] is the text of an ASCII literal of the source. *)
Definition py (s : string) : pystr :=
  map N_of_ascii (list_ascii_of_string s).

Definition LF : N := 10.
Definition BACKSLASH : N := 92.

Module Re.

(** ** The fragment of [re] used by the script *)

(** One-character matchers: a literal (possibly escaped) character, a
    negated set [[^...]] and a category such as [\d]. *)
Inductive cclass : Type :=
| CChar (c : N)
| CNot (cs : list N)
| CCategory (p : N -> bool).

Definition cclass_matches (k : cclass) (c : N) : bool :=
  match k with
  | CChar a => N.eqb c a
  | CNot cs => negb (existsb (N.eqb c) cs)
  | CCategory p => p c
  end.

(** A pattern is a sequence of atoms: one character, a greedy [k+], the
    parentheses of capture group 1, [^] and [$]. *)
Inductive atom : Type :=
| One (k : cclass)
| Many (k : cclass)
| GroupOpen
| GroupClose
| Bol
| Eol.

Abbreviation regex := (list atom).

(** [lits "abc"] is the pattern of the literal characters [a], [b], [c]. *)
Definition lits (s : pystr) : regex := map (fun c => One (CChar c)) s.

(** Positions of group 1: where it was opened and where it was closed. *)
Record groups : Type := { g_open : option nat; g_close : option nat }.

Definition no_groups : groups := {| g_open := None; g_close := None |}.

(** A match object: the end position and the span of group 1. *)
Record match_obj : Type := { m_end : nat; m_groups : groups }.

(** [$] without [re.MULTILINE]: the end of the text, or just before a
    newline that is the last character of the text. *)
Definition at_eol (s : pystr) : bool :=
  match s with
  | [] => true
  | [c] => N.eqb c LF
  | _ => false
  end.

(** Greedy [k+] with backtracking: after one character of the class, first
    try to take one more, and only if that leads nowhere continue with the
    rest of the pattern. *)
Fixpoint many (k : cclass) (cont : nat -> pystr -> option match_obj)
    (pos : nat) (s : pystr) {struct s} : option match_obj :=
  match s with
  | c :: s' =>
      if cclass_matches k c then
        match many k cont (S pos) s' with
        | Some m => Some m
        | None => cont (S pos) s'
        end
      else None
  | [] => None
  end.

(** [match_here re g pos s]: match [re] against the text whose remaining
    part from position [pos] on is [s]. *)
Fixpoint match_here (re : regex) (g : groups) (pos : nat) (s : pystr)
    {struct re} : option match_obj :=
  match re with
  | [] => Some {| m_end := pos; m_groups := g |}
  | One k :: re' =>
      match s with
      | c :: s' =>
          if cclass_matches k c then match_here re' g (S pos) s' else None
      | [] => None
      end
  | Many k :: re' => many k (fun pos' s' => match_here re' g pos' s') pos s
  | GroupOpen :: re' =>
      match_here re' {| g_open := Some pos; g_close := None |} pos s
  | GroupClose :: re' =>
      match_here re' {| g_open := g_open g; g_close := Some pos |} pos s
  | Bol :: re' =>
      match pos with
      | O => match_here re' g pos s
      | S _ => None
      end
  | Eol :: re' => if at_eol s then match_here re' g pos s else None
  end.

(** [re.match(pattern, string)]: a match anchored at position 0. *)
Definition re_match (re : regex) (s : pystr) : option match_obj :=
  match_here re no_groups 0 s.

(** [m.group(1)]: the slice of the whole text between the positions of the
    group; the empty text when the group did not take part in the match. *)
Definition group1 (whole : pystr) (m : match_obj) : pystr :=
  match g_open (m_groups m), g_close (m_groups m) with
  | Some a, Some b => firstn (b - a) (skipn a whole)
  | _, _ => []
  end.

(** Expansion of a replacement template.  The templates of the script hold
    ordinary characters and the back-reference [\1]. *)
Fixpoint expand (template grp : pystr) {struct template} : pystr :=
  match template with
  | [] => []
  | c :: t =>
      match t with
      | d :: t' =>
          if N.eqb c BACKSLASH && N.eqb d 49
          then grp ++ expand t' grp
          else c :: expand t grp
      | [] => [c]
      end
  end.

(** [re.sub(pattern, repl, string)], scanning left to right.  [skip] counts
    the characters of the current match still to be dropped; at [skip = 0]
    a match is attempted at the current position.  An empty match inserts
    the replacement and copies the current character. *)
Fixpoint sub_from (re : regex) (repl whole : pystr) (pos skip : nat)
    (s : pystr) {struct s} : pystr :=
  match skip with
  | S k =>
      match s with
      | [] => []
      | _ :: s' => sub_from re repl whole (S pos) k s'
      end
  | O =>
      match match_here re no_groups pos s with
      | Some m =>
          expand repl (group1 whole m) ++
          match s with
          | [] => []
          | c :: s' =>
              if Nat.eqb (m_end m) pos
              then c :: sub_from re repl whole (S pos) 0 s'
              else sub_from re repl whole (S pos) (m_end m - pos - 1) s'
          end
      | None =>
          match s with
          | [] => []
          | c :: s' => c :: sub_from re repl whole (S pos) 0 s'
          end
      end
  end.

Definition re_sub (re : regex) (repl s : pystr) : pystr :=
  sub_from re repl s 0 0 s.

(** Reading a pattern as it is written in the source.  The members of a
    set [[^...]], up to the closing bracket. *)
Fixpoint read_set (s : pystr) : option (list N * pystr) :=
  match s with
  | [] => None
  | c :: t =>
      if N.eqb c 93 then Some ([], t)
      else
        match read_set t with
        | Some (cs, rest) => Some (c :: cs, rest)
        | None => None
        end
  end.

(** One character's worth of pattern: [\d], an escaped character, a set
    [[^...]] or a plain character. *)
Definition read_class (digit : N -> bool) (c : N) (t : pystr)
  : option (cclass * pystr) :=
  if N.eqb c BACKSLASH then
    match t with
    | d :: t' => Some (if N.eqb d 100 then CCategory digit else CChar d, t')
    | [] => None
    end
  else if N.eqb c 91 then
    match t with
    | x :: t' =>
        if N.eqb x 94 then
          match read_set t' with
          | Some (cs, rest) => Some (CNot cs, rest)
          | None => None
          end
        else None
    | [] => None
    end
  else Some (CChar c, t).

(** [re.compile] on the syntax the script uses: [^], [$], the parentheses
    of a group, and one-character matchers with an optional [+]. *)
Fixpoint compile (digit : N -> bool) (fuel : nat) (s : pystr)
  : option regex :=
  match s with
  | [] => Some []
  | c :: t =>
      match fuel with
      | O => None
      | S fuel' =>
          if N.eqb c 94 then option_map (cons Bol) (compile digit fuel' t)
          else if N.eqb c 36 then
            option_map (cons Eol) (compile digit fuel' t)
          else if N.eqb c 40 then
            option_map (cons GroupOpen) (compile digit fuel' t)
          else if N.eqb c 41 then
            option_map (cons GroupClose) (compile digit fuel' t)
          else
            match read_class digit c t with
            | Some (k, rest) =>
                match rest with
                | p :: rest' =>
                    if N.eqb p 43
                    then option_map (cons (Many k)) (compile digit fuel' rest')
                    else option_map (cons (One k)) (compile digit fuel' rest)
                | [] => Some [One k]
                end
            | None => None
            end
      end
  end.

Definition re_compile (digit : N -> bool) (s : pystr) : option regex :=
  compile digit (length s) s.

End Re.

Import Re.

(** ** The patch rules of [modify_main_js] *)

Definition QUESTION : N := 63.
Definition RBRACE : N := 125.

Definition getMachineId_head : pystr :=
  Eval vm_compute in py "async getMachineId(){return ".
Definition getMacMachineId_head : pystr :=
  Eval vm_compute in py "async getMacMachineId(){return ".

(** The tail shared by both patterns: [[^??]+\?\?([^}]+)\}]. *)
Definition fallback_tail : regex :=
  [ Many (CNot [QUESTION; QUESTION]);
    One (CChar QUESTION); One (CChar QUESTION);
    GroupOpen; Many (CNot [RBRACE]); GroupClose;
    One (CChar RBRACE) ].

(** The replacement [<head>\1}]. *)
Definition keep_fallback (head : pystr) : pystr :=
  head ++ [BACKSLASH; 49; RBRACE].

(** [async getMachineId\(\)\{return [^??]+\?\?([^}]+)\}] and its twin. *)
Definition getMachineId_pattern : regex :=
  lits getMachineId_head ++ fallback_tail.
Definition getMacMachineId_pattern : regex :=
  lits getMacMachineId_head ++ fallback_tail.

(** The dictionary [patterns], in insertion order. *)
Definition patterns : list (regex * pystr) :=
  [ (getMachineId_pattern, keep_fallback getMachineId_head);
    (getMacMachineId_pattern, keep_fallback getMacMachineId_head) ].

(** The loop [for pattern, replacement in patterns.items(): content =
    re.sub(pattern, replacement, content)]. *)
Definition apply_patterns (rules : list (regex * pystr)) (content : pystr)
  : pystr :=
  fold_left (fun acc rule => re_sub (fst rule) (snd rule) acc) rules content.

Definition patch_text (content : pystr) : pystr :=
  apply_patterns patterns content.

(** ** Exceptions, outcomes and the logger *)

(** The exception classes the script can meet.  All of them derive from
    [Exception], so every [except Exception] handler catches them. *)
Inductive exn : Type :=
| ValueError
| KeyError
| UnsupportedSystem (system : pystr)   (* OSError("不支持的操作系统: ...") *)
| InstallationNotFound                  (* OSError("在 Linux 系统上未找到 ...") *)
| FileNotFoundError (path : pystr)
| FileExistsError (path : pystr)
| IsADirectoryError (path : pystr)
| SameFileError
| DestinationExists (path : pystr)     (* shutil.Error of shutil.move *)
| UnicodeDecodeError
| UnicodeEncodeError
| IOError.                              (* any other OSError of a file operation *)

Inductive outcome (A : Type) : Type :=
| Returned (a : A)
| Raised (e : exn).
Arguments Returned {A} a.
Arguments Raised {A} e.

(** Messages handed to [logger.error] and [logger.info]. *)
Inductive log_record : Type :=
| FileMissing (path : pystr)                      (* 文件不存在 *)
| NoWritePermission (path : pystr)                (* 没有文件写入权限 *)
| InvalidVersionFormat (version : pystr)          (* 无效的版本号格式 *)
| VersionBelowMinimum (version bound : pystr)     (* 版本号 .. 小于最小要求 .. *)
| VersionAboveMaximum (version bound : pystr)     (* 版本号 .. 大于最大要求 .. *)
| VersionCheckFailed (e : exn)                    (* 版本检查失败 *)
| ModifyFailed (e : exn)                          (* 修改文件时发生错误 *)
| ModifySucceeded.                                (* 文件修改成功 *)

(** Computations that read and change a state [S] and may raise.  The state
    reached when an exception is raised is kept: effects are not undone. *)
Definition M (S A : Type) : Type := S -> outcome A * S.

Definition ret {S A : Type} (a : A) : M S A := fun s => (Returned a, s).

Definition raise {S A : Type} (e : exn) : M S A := fun s => (Raised e, s).

Definition bind {S A B : Type} (m : M S A) (k : A -> M S B) : M S B :=
  fun s =>
    match m s with
    | (Returned a, s') => k a s'
    | (Raised e, s') => (Raised e, s')
    end.

(** [try: body except Exception as e: handler(e)]. *)
Definition try_except {S A : Type} (body : M S A) (handler : exn -> M S A)
  : M S A :=
  fun s =>
    match body s with
    | (Returned a, s') => (Returned a, s')
    | (Raised e, s') => handler e s'
    end.

Notation "'let*' x ':=' c 'in' k" := (bind c (fun x => k))
  (at level 10, x name, c at level 100, k at level 200).
Notation "c ';;' k" := (bind c (fun _ => k))
  (at level 100, k at level 200, right associativity).

(** ** Characters as [int] and [\d] see them *)

Inductive digit : Type := D0 | D1 | D2 | D3 | D4 | D5 | D6 | D7 | D8 | D9.

Definition digit_value (d : digit) : Z :=
  match d with
  | D0 => 0 | D1 => 1 | D2 => 2 | D3 => 3 | D4 => 4
  | D5 => 5 | D6 => 6 | D7 => 7 | D8 => 8 | D9 => 9
  end%Z.

(** What the Unicode database says of a code point: a decimal digit with
    its value, white space, or neither. *)
Inductive uclass : Type :=
| UDecimal (d : digit)
| USpace
| UOther.

(** The ASCII range is fixed: the digits [0]-[9], and the white space that
    [int] skips there (tab, line feed, vertical tab, form feed, carriage
    return, space). *)
Definition ascii_class (c : N) : uclass :=
  match c with
  | 48 => UDecimal D0 | 49 => UDecimal D1 | 50 => UDecimal D2
  | 51 => UDecimal D3 | 52 => UDecimal D4 | 53 => UDecimal D5
  | 54 => UDecimal D6 | 55 => UDecimal D7 | 56 => UDecimal D8
  | 57 => UDecimal D9
  | 9 | 10 | 11 | 12 | 13 | 32 => USpace
  | _ => UOther
  end.

Definition DOT : N := 46.

(** The interpreter never refuses to convert a number of at most this many
    digits ([_PY_LONG_MAX_STR_DIGITS_THRESHOLD]). *)
Definition MAX_STR_DIGITS_THRESHOLD : N := 640.

(** The limit in force unless it is set otherwise. *)
Definition DEFAULT_MAX_STR_DIGITS : N := 4300.

(** Python's [str.split(sep)] for a one-character separator: the pieces
    between the separators; a text without separator is its only piece. *)
Fixpoint split_on (sep : N) (s : pystr) : list pystr :=
  match s with
  | [] => [[]]
  | c :: t =>
      if N.eqb c sep then [] :: split_on sep t
      else
        match split_on sep t with
        | w :: ws => (c :: w) :: ws
        | [] => [[c]]
        end
  end.

(** Comparison of tuples of integers: the first differing position decides,
    and a proper prefix is smaller. *)
Fixpoint tuple_lt (a b : list Z) : bool :=
  match a, b with
  | [], [] => false
  | [], _ :: _ => true
  | _ :: _, [] => false
  | x :: a', y :: b' => if Z.eqb x y then tuple_lt a' b' else Z.ltb x y
  end.

Fixpoint tuple_gt (a b : list Z) : bool :=
  match a, b with
  | [], [] => false
  | [], _ :: _ => false
  | _ :: _, [] => true
  | x :: a', y :: b' => if Z.eqb x y then tuple_gt a' b' else Z.gtb x y
  end.

(** [map f xs] for an [f] that may raise: the first exception wins. *)
Fixpoint map_raising {S A B : Type} (f : A -> M S B) (xs : list A)
  : M S (list B) :=
  match xs with
  | [] => ret []
  | x :: xs' =>
      let* y := f x in
      let* ys := map_raising f xs' in
      ret (y :: ys)
  end.

(** What a run leaves behind for an observer, in order: the questions it
    asked about paths and the records it logged. *)
Inductive event : Type :=
| CallExists (path : pystr)     (* os.path.exists(path) *)
| CallIsFile (path : pystr)     (* os.path.isfile(path) *)
| CallAccessW (path : pystr)    (* os.access(path, os.W_OK) *)
| LogError (r : log_record)
| LogInfo (r : log_record).

Definition logger_error (r : log_record) : M (list event) unit :=
  fun tr => (Returned tt, tr ++ [LogError r]).

Definition logger_info (r : log_record) : M (list event) unit :=
  fun tr => (Returned tt, tr ++ [LogInfo r]).

Section Version.

(** The Unicode database outside ASCII is a parameter of the model. *)
Variable unicode_class : N -> uclass.

(** [sys.get_int_max_str_digits()]: the most digits [int] converts, 4300
    unless the interpreter was started or set otherwise; 0 switches the
    limit off, as in an interpreter that has none. *)
Variable max_str_digits : N.

Definition char_class (c : N) : uclass :=
  if c <? 128 then ascii_class c else unicode_class c.

(** [\d] on [str] patterns: any Unicode decimal digit. *)
Definition is_decimal (c : N) : bool :=
  match char_class c with
  | UDecimal _ => true
  | _ => false
  end.

(** [version_pattern = r"^\d+\.\d+\.\d+$"]. *)
Definition version_pattern : regex :=
  [ Bol;
    Many (CCategory is_decimal); One (CChar DOT);
    Many (CCategory is_decimal); One (CChar DOT);
    Many (CCategory is_decimal);
    Eol ].

(** *** [int(text)] in base 10 *)

Inductive sym : Type :=
| SDigit (d : digit)
| SSpace
| SPlus
| SMinus
| SUnderscore
| SOther.

Definition sym_of (c : N) : sym :=
  match char_class c with
  | UDecimal d => SDigit d
  | USpace => SSpace
  | UOther =>
      if N.eqb c 43 then SPlus
      else if N.eqb c 45 then SMinus
      else if N.eqb c 95 then SUnderscore
      else SOther
  end.

Fixpoint skip_spaces (l : list sym) : list sym :=
  match l with
  | SSpace :: t => skip_spaces t
  | _ => l
  end.

(** The digits after the first one; a single underscore may separate two
    digits.  Returns the value read, the number of digits seen (underscores
    are not counted) and what follows the number. *)
Fixpoint int_digits (acc : Z) (digits : N) (l : list sym) {struct l}
  : option (Z * N * list sym) :=
  match l with
  | SDigit d :: t => int_digits (10 * acc + digit_value d) (digits + 1) t
  | SUnderscore :: t =>
      match t with
      | SDigit d :: t' =>
          int_digits (10 * acc + digit_value d) (digits + 1) t'
      | _ => None
      end
  | _ => Some (acc, digits, l)
  end.

(** A number of more than [max_str_digits] digits is refused, leading
    zeros included; numbers of at most 640 digits never are. *)
Definition exceeds_limit (digits : N) : bool :=
  (MAX_STR_DIGITS_THRESHOLD <? digits) && (0 <? max_str_digits)
  && (max_str_digits <? digits).

Definition int_signed (sign : Z) (l : list sym) : outcome Z :=
  match l with
  | SDigit d :: t =>
      match int_digits (digit_value d) 1 t with
      | Some (v, digits, rest) =>
          if exceeds_limit digits then Raised ValueError
          else
            match skip_spaces rest with
            | [] => Returned (sign * v)%Z
            | _ :: _ => Raised ValueError
            end
      | None => Raised ValueError
      end
  | _ => Raised ValueError
  end.

(** White space around the number is skipped, a sign may precede it, and
    nothing else may follow; the digits may not be more than the
    interpreter converts. *)
Definition int (s : pystr) : outcome Z :=
  match skip_spaces (map sym_of s) with
  | SPlus :: t => int_signed 1 t
  | SMinus :: t => int_signed (-1) t
  | l => int_signed 1 l
  end.

Definition int_call {S : Type} (s : pystr) : M S Z :=
  fun st => (int s, st).

(** [parse_version(ver) = tuple(map(int, ver.split(".")))]. *)
Definition parse_version {S : Type} (ver : pystr) : M S (list Z) :=
  map_raising int_call (split_on DOT ver).

Definition truthy (s : pystr) : bool :=
  match s with
  | [] => false
  | _ :: _ => true
  end.

(** The body of the [try] block of [version_check]. *)
Definition version_check_body (version min_version max_version : pystr)
  : M (list event) bool :=
  match re_match version_pattern version with
  | None =>
      logger_error (InvalidVersionFormat version) ;;
      ret false
  | Some _ =>
      let* current := parse_version version in
      let* below :=
        (if truthy min_version
         then let* lo := parse_version min_version in
              ret (tuple_lt current lo)
         else ret false) in
      if below then
        logger_error (VersionBelowMinimum version min_version) ;;
        ret false
      else
        let* above :=
          (if truthy max_version
           then let* hi := parse_version max_version in
                ret (tuple_gt current hi)
           else ret false) in
        if above then
          logger_error (VersionAboveMaximum version max_version) ;;
          ret false
        else ret true
  end.

Definition version_check (version min_version max_version : pystr)
  : M (list event) bool :=
  try_except
    (version_check_body version min_version max_version)
    (fun e => logger_error (VersionCheckFailed e) ;; ret false).

End Version.

(** ** [os.path.join] *)

Definition SLASH : N := 47.
Definition COLON : N := 58.

Definition pystr_eqb (a b : pystr) : bool := bool_decide (a = b).

(** [s[a:b]] for non-negative indices. *)
Definition slice (a b : nat) (s : pystr) : pystr := firstn (b - a) (skipn a s).

Fixpoint index_of (c : N) (s : pystr) : option nat :=
  match s with
  | [] => None
  | x :: t => if N.eqb x c then Some O else option_map S (index_of c t)
  end.

(** [s.find(c, start)], with [None] for [-1]. *)
Definition find_from (c : N) (start : nat) (s : pystr) : option nat :=
  option_map (Nat.add start) (index_of c (skipn start s)).

Definition ends_with (c : N) (s : pystr) : bool :=
  match last s with
  | Some x => N.eqb x c
  | None => false
  end.

(** The part of [s] after its last character in [sep], all of [s] when
    there is none. *)
Fixpoint after_last (sep : N -> bool) (s : pystr) : pystr :=
  match s with
  | [] => []
  | c :: t =>
      if existsb sep t then after_last sep t
      else if sep c then t else c :: t
  end.

(** [s.rstrip(chars)]. *)
Fixpoint rstrip (chars : N -> bool) (s : pystr) : pystr :=
  match s with
  | [] => []
  | c :: t =>
      match rstrip chars t with
      | [] => if chars c then [] else [c]
      | t' => c :: t'
      end
  end.

Module PosixPath.

Definition is_sep (c : N) : bool := N.eqb c SLASH.

(** [posixpath.basename(p)]: what follows the last slash. *)
Definition basename (p : pystr) : pystr := after_last is_sep p.

(** [posixpath.join(a, *p)]. *)
Fixpoint join (a : pystr) (p : list pystr) : pystr :=
  match p with
  | [] => a
  | b :: p' =>
      let path :=
        if pystr_eqb (slice 0 1 b) [SLASH] then b
        else if negb (truthy a) || ends_with SLASH a then a ++ b
        else a ++ [SLASH] ++ b in
      join path p'
  end.

End PosixPath.

Module NtPath.

(** Case mapping on the ASCII letters; the script passes no component in
    which other letters would matter (they occur only in drive names). *)
Definition upper_char (c : N) : N :=
  if (97 <=? c) && (c <=? 122) then c - 32 else c.
Definition lower_char (c : N) : N :=
  if (65 <=? c) && (c <=? 90) then c + 32 else c.

Definition is_sep (c : N) : bool := N.eqb c BACKSLASH || N.eqb c SLASH.

Definition unc_prefix : pystr :=
  [BACKSLASH; BACKSLASH; QUESTION; BACKSLASH; 85; 78; 67; BACKSLASH].

(** [ntpath.splitroot(p)]: drive, root and the rest. *)
Definition splitroot (p : pystr) : pystr * pystr * pystr :=
  let normp := map (fun c => if N.eqb c SLASH then BACKSLASH else c) p in
  if pystr_eqb (slice 0 1 normp) [BACKSLASH] then
    if pystr_eqb (slice 1 2 normp) [BACKSLASH] then
      let start :=
        if pystr_eqb (map upper_char (slice 0 8 normp)) unc_prefix
        then 8%nat else 2%nat in
      match find_from BACKSLASH start normp with
      | None => (p, [], [])
      | Some index =>
          match find_from BACKSLASH (index + 1) normp with
          | None => (p, [], [])
          | Some index2 =>
              (slice 0 index2 p, slice index2 (index2 + 1) p,
               skipn (index2 + 1) p)
          end
      end
    else ([], slice 0 1 p, skipn 1 p)
  else if pystr_eqb (slice 1 2 normp) [COLON] then
    if pystr_eqb (slice 2 3 normp) [BACKSLASH]
    then (slice 0 2 p, slice 2 3 p, skipn 3 p)
    else (slice 0 2 p, [], skipn 2 p)
  else ([], [], p).

Definition last_is_sep (s : pystr) : bool :=
  match last s with
  | Some c => is_sep c
  | None => false
  end.

(** The loop of [ntpath.join] over the later components. *)
Fixpoint join_loop (drive root path : pystr) (paths : list pystr)
  : pystr * pystr * pystr :=
  match paths with
  | [] => (drive, root, path)
  | p :: paths' =>
      let '(p_drive, p_root, p_path) := splitroot p in
      if truthy p_root then
        join_loop
          (if truthy p_drive || negb (truthy drive) then p_drive else drive)
          p_root p_path paths'
      else if truthy p_drive && negb (pystr_eqb p_drive drive)
              && negb (pystr_eqb (map lower_char p_drive)
                                 (map lower_char drive)) then
        join_loop p_drive p_root p_path paths'
      else
        let drive' :=
          if truthy p_drive && negb (pystr_eqb p_drive drive)
          then p_drive else drive in
        let path' :=
          if truthy path && negb (last_is_sep path)
          then path ++ [BACKSLASH] else path in
        join_loop drive' root (path' ++ p_path) paths'
  end.

(** [ntpath.join(path, *paths)]. *)
Definition join (path : pystr) (paths : list pystr) : pystr :=
  let '(d, r, t) := splitroot path in
  let '(drive, root, rest) := join_loop d r t paths in
  if truthy rest && negb (truthy root) && truthy drive
     && negb (match last drive with
              | Some c => N.eqb c COLON || is_sep c
              | None => false
              end)
  then drive ++ [BACKSLASH] ++ rest
  else drive ++ root ++ rest.

(** [ntpath.basename(p)]: what follows the last separator after the drive
    and the root. *)
Definition basename (p : pystr) : pystr :=
  let '(_, _, rest) := splitroot p in after_last is_sep rest.

End NtPath.

(** ** [get_cursor_paths] *)

(** The host as the script observes it. *)
Record host : Type := {
  platform_system : pystr;             (* platform.system() *)
  environ : pystr -> option pystr;     (* os.environ *)
  path_exists : pystr -> bool;         (* os.path.exists *)
  path_isfile : pystr -> bool;         (* os.path.isfile *)
  access_w_ok : pystr -> bool          (* os.access(_, os.W_OK) *)
}.

(** [os.path] is [ntpath] on Windows and [posixpath] elsewhere. *)
Definition os_path_join (system : pystr) : pystr -> list pystr -> pystr :=
  if pystr_eqb system (py "Windows") then NtPath.join else PosixPath.join.

Definition os_path_basename (system : pystr) : pystr -> pystr :=
  if pystr_eqb system (py "Windows") then NtPath.basename
  else PosixPath.basename.

(** The separators [os.path.sep] and [os.path.altsep]. *)
Definition os_path_is_sep (system : pystr) : N -> bool :=
  if pystr_eqb system (py "Windows") then NtPath.is_sep else PosixPath.is_sep.

(** [os.getenv(name, default)]. *)
Definition os_getenv (h : host) (name default : pystr) : pystr :=
  match environ h name with
  | Some v => v
  | None => default
  end.

Definition os_path_exists (h : host) (p : pystr) : M (list event) bool :=
  fun tr => (Returned (path_exists h p), tr ++ [CallExists p]).

Definition os_path_isfile (h : host) (p : pystr) : M (list event) bool :=
  fun tr => (Returned (path_isfile h p), tr ++ [CallIsFile p]).

Definition os_access_w (h : host) (p : pystr) : M (list event) bool :=
  fun tr => (Returned (access_w_ok h p), tr ++ [CallAccessW p]).

(** An entry of [paths_map]: the keys ["base"] or ["bases"], ["package"]
    and ["main"]. *)
Record install_entry : Type := {
  e_base : option pystr;
  e_bases : option (list pystr);
  e_package : pystr;
  e_main : pystr
}.

Definition linux_bases : list pystr :=
  [ py "/opt/Cursor/resources/app"; py "/usr/share/cursor/resources/app" ].

Definition paths_map (h : host) : list (pystr * install_entry) :=
  let join := os_path_join (platform_system h) in
  [ (py "Darwin",
     {| e_base := Some (py "/Applications/Cursor.app/Contents/Resources/app");
        e_bases := None;
        e_package := py "package.json"; e_main := py "out/main.js" |});
    (py "Windows",
     {| e_base :=
          Some (join (os_getenv h (py "LOCALAPPDATA") [])
                  [py "Programs"; py "Cursor"; py "resources"; py "app"]);
        e_bases := None;
        e_package := py "package.json"; e_main := py "out/main.js" |});
    (py "Linux",
     {| e_base := None;
        e_bases := Some linux_bases;
        e_package := py "package.json"; e_main := py "out/main.js" |}) ].

Fixpoint dict_lookup {V : Type} (k : pystr) (d : list (pystr * V))
  : option V :=
  match d with
  | [] => None
  | (k', v) :: d' => if pystr_eqb k k' then Some v else dict_lookup k d'
  end.

(** [d[k]]: a missing key raises [KeyError]. *)
Definition subscript {S V : Type} (o : option V) : M S V :=
  match o with
  | Some v => ret v
  | None => raise KeyError
  end.

(** The loop over the Linux roots. *)
Fixpoint probe_bases (h : host) (join : pystr -> list pystr -> pystr)
    (package main : pystr) (bases : list pystr)
  : M (list event) (pystr * pystr) :=
  match bases with
  | [] => raise InstallationNotFound
  | base :: rest =>
      let pkg_path := join base [package] in
      let* found := os_path_exists h pkg_path in
      if found then ret (pkg_path, join base [main])
      else probe_bases h join package main rest
  end.

Definition get_cursor_paths (h : host) : M (list event) (pystr * pystr) :=
  let system := platform_system h in
  let join := os_path_join system in
  let paths_map := paths_map h in
  match dict_lookup system paths_map with
  | None => raise (UnsupportedSystem system)
  | Some entry =>
      if pystr_eqb system (py "Linux") then
        let* linux := subscript (dict_lookup (py "Linux") paths_map) in
        let* bases := subscript (e_bases linux) in
        probe_bases h join (e_package linux) (e_main linux) bases
      else
        let* base_path := subscript (e_base entry) in
        ret (join base_path [e_package entry],
             join base_path [e_main entry])
  end.

(** ** [check_system_requirements] *)

(** The loop [for file_path in [pkg_path, main_path]]. *)
Fixpoint check_files (h : host) (files : list pystr) : M (list event) bool :=
  match files with
  | [] => ret true
  | file_path :: rest =>
      let* is_file := os_path_isfile h file_path in
      if negb is_file then
        logger_error (FileMissing file_path) ;;
        ret false
      else
        let* writable := os_access_w h file_path in
        if negb writable then
          logger_error (NoWritePermission file_path) ;;
          ret false
        else check_files h rest
  end.

Definition check_system_requirements (h : host) (pkg_path main_path : pystr)
  : M (list event) bool :=
  check_files h [pkg_path; main_path].

(** ** Files and [modify_main_js] *)

(** What a regular file holds: its bytes and its permission bits. *)
Record file : Type := { f_data : list N; f_mode : N }.

(** What a path names: a directory, or a regular file, with the number the
    system knows the file by ([st_ino]).  Paths with the same number are
    names of one file, as hard links are, or a symbolic link and the file
    it points to: what is written through one name is read through all of
    them.  A symbolic link to a directory is one more path that names a
    directory; directories are told apart by their paths.  The directory
    in which a path lies is taken to exist.  Devices, pipes and sockets
    are outside the model. *)
Inductive node : Type :=
| Dir
| Reg (ino : N) (content : file).

Abbreviation fsys := (gmap (list N) node).

(** The regular file a path names, if it names one. *)
Definition file_at (fs : fsys) (path : pystr) : option file :=
  match fs !! path with
  | Some (Reg _ f) => Some f
  | _ => None
  end.

(** [os.path.isdir(path)] and [os.path.exists(path)]. *)
Definition os_path_isdir (fs : fsys) (path : pystr) : bool :=
  match fs !! path with
  | Some Dir => true
  | _ => false
  end.

Definition path_in_use (fs : fsys) (path : pystr) : bool :=
  match fs !! path with
  | Some _ => true
  | None => false
  end.

(** [shutil._samefile(a, b)]: both paths exist and name the same file;
    [False] when one of them does not exist. *)
Definition samefile (fs : fsys) (a b : pystr) : bool :=
  match fs !! a, fs !! b with
  | Some (Reg i _), Some (Reg j _) => N.eqb i j
  | Some Dir, Some Dir => pystr_eqb a b
  | _, _ => false
  end.

Definition node_ino (n : node) : option N :=
  match n with
  | Reg i _ => Some i
  | Dir => None
  end.

(** The file numbers in use. *)
Definition inos (fs : fsys) : gset N :=
  list_to_set (omap (fun entry => node_ino (snd entry)) (map_to_list fs)).

(** The number of a file that is created: one that is not in use. *)
Definition fresh_ino (fs : fsys) : N := fresh (inos fs).

(** Writing the file number [i] reaches every path that names it. *)
Definition write_ino (i : N) (f : file) (fs : fsys) : fsys :=
  (fun n => match n with
            | Reg j g => if N.eqb j i then Reg j f else Reg j g
            | Dir => Dir
            end) <$> fs.

(** What opening [path] for writing and writing [f] leaves: an existing
    file is written through, a missing one is created.  (A directory
    cannot be opened for writing.) *)
Definition put (path : pystr) (f : file) (fs : fsys) : fsys :=
  match fs !! path with
  | Some (Reg i _) => write_ino i f fs
  | Some Dir => fs
  | None => <[path := Reg (fresh_ino fs) f]> fs
  end.

(** The one step of a run that fails for a reason outside the files of the
    model (a full disk, a missing permission, a device error), with how
    many bytes of the file being written had reached the disk ([None]: the
    step failed before it touched its destination). *)
Inductive fault : Type :=
| NoFault
| TempCreateFails
| ReadFails
| WriteFails (written : nat)
| CloseFails (written : nat)
| BackupFails (written : option nat)
| MoveFails (written : option nat).

(** What the run gets from its surroundings. *)
Record sysenv : Type := {
  env_system : pystr;        (* platform.system(): which os.path is in use *)
  tmp_stem : pystr;          (* tempfile.gettempdir() joined with "tmp" *)
  tmp_entropy : nat -> N;    (* the random source of the temporary name *)
  decode_utf8 : list N -> option pystr;
                             (* the text of bytes read with encoding utf-8 *)
  encode_default : pystr -> option (list N);
                             (* the bytes of text written in mode "w" *)
  new_file_mode : N;         (* permission bits of a newly created file *)
  rename_refused : bool;     (* os.rename from the temporary directory
                                raises OSError, as across file systems *)
  injected : fault
}.

(** The state of a call of [modify_main_js]: the files, the events and the
    local variable [tmp_path], unbound at first. *)
Record frame : Type := {
  files : fsys;
  events : list event;
  tmp_path : option pystr
}.

Definition set_files (fs : fsys) (st : frame) : frame :=
  {| files := fs; events := events st; tmp_path := tmp_path st |}.

Definition with_events {A : Type} (m : M (list event) A) : M frame A :=
  fun st =>
    let '(r, tr) := m (events st) in
    (r, {| files := files st; events := tr; tmp_path := tmp_path st |}).

(** [tmp_path = tmp_file.name]. *)
Definition bind_tmp_path (name : pystr) : M frame unit :=
  fun st =>
    (Returned tt,
     {| files := files st; events := events st; tmp_path := Some name |}).

(** ["tmp_path" in locals()], with the value when bound. *)
Definition local_tmp_path : M frame (option pystr) :=
  fun st => (Returned (tmp_path st), st).

Definition TEMP_MODE : N := 384.   (* 0o600 *)

(** The characters [tempfile] draws the random part of a name from. *)
Definition temp_alphabet : pystr :=
  Eval vm_compute in py "abcdefghijklmnopqrstuvwxyz0123456789_".

Definition temp_char (r : N) : N :=
  nth (N.to_nat (r mod 37)) temp_alphabet 95.

(** The name of the temporary file: the directory and the prefix ["tmp"],
    then eight random characters, and no suffix. *)
Definition tmp_name (env : sysenv) : pystr :=
  tmp_stem env ++ map (fun i => temp_char (tmp_entropy env i)) (seq 0 8).

Section Files.

Variable env : sysenv.

(** [tempfile.NamedTemporaryFile(mode="w", delete=False)]: a new, empty
    file under a name that was not in use. *)
Definition NamedTemporaryFile : M frame pystr :=
  fun st =>
    match injected env with
    | TempCreateFails => (Raised IOError, st)
    | _ =>
        match files st !! tmp_name env with
        | Some _ => (Raised (FileExistsError (tmp_name env)), st)
        | None =>
            (Returned (tmp_name env),
             set_files
               (put (tmp_name env) {| f_data := []; f_mode := TEMP_MODE |}
                  (files st)) st)
        end
    end.

(** [open(path, "r", encoding="utf-8")] followed by [read()]. *)
Definition read_text (path : pystr) : M frame pystr :=
  fun st =>
    match files st !! path with
    | None => (Raised (FileNotFoundError path), st)
    | Some Dir => (Raised (IsADirectoryError path), st)
    | Some (Reg _ f) =>
        match injected env with
        | ReadFails => (Raised IOError, st)
        | _ =>
            match decode_utf8 env (f_data f) with
            | Some text => (Returned text, st)
            | None => (Raised UnicodeDecodeError, st)
            end
        end
    end.

(** The bytes of the file that [path] names become [data]. *)
Definition set_data (path : pystr) (data : list N) (st : frame) : frame :=
  match files st !! path with
  | Some (Reg i f) =>
      set_files
        (write_ino i {| f_data := data; f_mode := f_mode f |} (files st)) st
  | _ => st
  end.

(** [tmp_file.write(content)]. *)
Definition tmp_file_write (name content : pystr) : M frame unit :=
  fun st =>
    match encode_default env content with
    | None => (Raised UnicodeEncodeError, st)
    | Some bytes =>
        match injected env with
        | WriteFails n => (Raised IOError, set_data name (firstn n bytes) st)
        | _ => (Returned tt, set_data name bytes st)
        end
    end.

(** Leaving the [with] block closes the temporary file; the last flush may
    fail. *)
Definition tmp_file_close (name : pystr) : M frame unit :=
  fun st =>
    match injected env with
    | CloseFails n =>
        match file_at (files st) name with
        | Some f => (Raised IOError, set_data name (firstn n (f_data f)) st)
        | None => (Raised IOError, st)
        end
    | _ => (Returned tt, st)
    end.

(** A copy that stopped after [n] bytes leaves a truncated destination. *)
Definition truncated (src : file) (dst : option file) (n : nat) : file :=
  {| f_data := firstn n (f_data src);
     f_mode := match dst with
               | Some d => f_mode d
               | None => new_file_mode env
               end |}.

(** Where [shutil.copy2(src, dst)] writes: [dst], or, when [dst] is a
    directory, the path of [src]'s base name in it. *)
Definition copy_target (fs : fsys) (src dst : pystr) : pystr :=
  if os_path_isdir fs dst
  then os_path_join (env_system env) dst
         [os_path_basename (env_system env) src]
  else dst.

(** [shutil.copy2(src, dst)] of a regular file: the bytes
    ([shutil.copyfile]) and the permission bits ([shutil.copystat]). *)
Definition shutil_copy2 (failure : option (option nat)) (src dst : pystr)
  : M frame unit :=
  fun st =>
    let dst := copy_target (files st) src dst in
    if samefile (files st) src dst then (Raised SameFileError, st)
    else
      match files st !! src with
      | None => (Raised (FileNotFoundError src), st)
      | Some Dir => (Raised (IsADirectoryError src), st)
      | Some (Reg _ f) =>
          if os_path_isdir (files st) dst
          then (Raised (IsADirectoryError dst), st)
          else
            match failure with
            | None => (Returned tt, set_files (put dst f (files st)) st)
            | Some None => (Raised IOError, st)
            | Some (Some n) =>
                (Raised IOError,
                 set_files
                   (put dst (truncated f (file_at (files st) dst) n)
                      (files st)) st)
            end
      end.

(** [os.unlink(path)]: the name is removed; the file stays under its other
    names. *)
Definition os_unlink (path : pystr) : M frame unit :=
  fun st =>
    match files st !! path with
    | None => (Raised (FileNotFoundError path), st)
    | Some Dir => (Raised (IsADirectoryError path), st)
    | Some (Reg _ _) => (Returned tt, set_files (delete path (files st)) st)
    end.

(** [os.rename(src, dst)] of a regular file: [dst] becomes a name of the
    file and [src] no longer is one, in one step.  It is refused across
    file systems, on Windows when [dst] exists, and onto a directory;
    nothing happens when both are names of the same file. *)
Definition os_rename (refused : bool) (src dst : pystr) : M frame unit :=
  fun st =>
    match files st !! src with
    | None => (Raised (FileNotFoundError src), st)
    | Some Dir => (Raised IOError, st)
    | Some (Reg i f) =>
        if refused then (Raised IOError, st)
        else
          match files st !! dst with
          | Some Dir => (Raised (IsADirectoryError dst), st)
          | Some (Reg j _) =>
              if pystr_eqb (env_system env) (py "Windows")
              then (Raised (FileExistsError dst), st)
              else if N.eqb i j then (Returned tt, st)
              else
                (Returned tt,
                 set_files (delete src (<[dst := Reg i f]> (files st))) st)
          | None =>
              (Returned tt,
               set_files (delete src (<[dst := Reg i f]> (files st))) st)
          end
    end.

(** [shutil._basename(path)]: the base name once trailing separators are
    removed. *)
Definition shutil_basename (path : pystr) : pystr :=
  os_path_basename (env_system env)
    (rstrip (os_path_is_sep (env_system env)) path).

(** [shutil.move(src, dst)] of a regular file: into [dst] when that is a
    directory, else onto [dst]; by [os.rename], and where that is refused
    by a copy followed by the removal of [src].  An injected failure is
    one of this replacement as a whole: the renaming is refused and the
    copy fails. *)
Definition shutil_move (failure : option (option nat)) (src dst : pystr)
  : M frame unit :=
  fun st =>
    let refused :=
      match failure with
      | Some _ => true
      | None => rename_refused env
      end in
    let replace (real_dst : pystr) : M frame unit :=
      try_except (os_rename refused src real_dst)
        (fun _ => shutil_copy2 failure src real_dst ;; os_unlink src) in
    if os_path_isdir (files st) dst then
      if samefile (files st) src dst then os_rename refused src dst st
      else
        let real_dst :=
          os_path_join (env_system env) dst [shutil_basename src] in
        if path_in_use (files st) real_dst
        then (Raised (DestinationExists real_dst), st)
        else replace real_dst st
    else replace dst st.

Definition backup_failure : option (option nat) :=
  match injected env with
  | BackupFails w => Some w
  | _ => None
  end.

Definition move_failure : option (option nat) :=
  match injected env with
  | MoveFails w => Some w
  | _ => None
  end.

Definition backup_path (main_path : pystr) : pystr := main_path ++ py ".old".

(** The [with] block: the patched text is written to the temporary file. *)
Definition stage_patched (main_path : pystr) : M frame pystr :=
  let* tmp_file := NamedTemporaryFile in
  let* content := read_text main_path in
  let content := patch_text content in
  tmp_file_write tmp_file content ;;
  bind_tmp_path tmp_file ;;
  tmp_file_close tmp_file ;;
  ret tmp_file.

(** The body of the [try] block. *)
Definition modify_main_js_body (main_path : pystr) : M frame bool :=
  let* tmp := stage_patched main_path in
  shutil_copy2 backup_failure main_path (backup_path main_path) ;;
  shutil_move move_failure tmp main_path ;;
  with_events (logger_info ModifySucceeded) ;;
  ret true.

(** The [except Exception] handler. *)
Definition modify_main_js_handler (e : exn) : M frame bool :=
  with_events (logger_error (ModifyFailed e)) ;;
  let* bound := local_tmp_path in
  match bound with
  | Some path => os_unlink path
  | None => ret tt
  end ;;
  ret false.

(** A call starts with [tmp_path] unbound. *)
Definition enter (fs : fsys) (tr : list event) : frame :=
  {| files := fs; events := tr; tmp_path := None |}.

Definition modify_main_js (main_path : pystr) (fs : fsys)
    (tr : list event) : outcome bool * frame :=
  try_except (modify_main_js_body main_path) modify_main_js_handler
    (enter fs tr).

End Files.

(** * Vocabulary of the properties *)

(** ** Searching and the marker [??] *)

(** [re.search]: is there a position at which the pattern matches? *)
Fixpoint re_search_from (re : regex) (pos : nat) (s : pystr) : bool :=
  match match_here re no_groups pos s with
  | Some _ => true
  | None =>
      match s with
      | [] => false
      | _ :: s' => re_search_from re (S pos) s'
      end
  end.

Definition re_search (re : regex) (s : pystr) : bool := re_search_from re 0 s.

(** Does the text contain two question marks in a row? *)
Fixpoint has_qq (s : pystr) : bool :=
  match s with
  | [] => false
  | a :: t =>
      match t with
      | [] => false
      | b :: _ => N.eqb a QUESTION && N.eqb b QUESTION || has_qq t
      end
  end.

(** ** Versions *)

(** [tuple(map(int, pieces))] without the state. *)
Fixpoint ints (int : pystr -> outcome Z) (pieces : list pystr)
  : outcome (list Z) :=
  match pieces with
  | [] => Returned []
  | p :: ps =>
      match int p with
      | Returned x =>
          match ints int ps with
          | Returned xs => Returned (x :: xs)
          | Raised e => Raised e
          end
      | Raised e => Raised e
      end
  end.

(** Lexicographic order on (major, minor, patch). *)
Definition triple_lt (x y : Z * Z * Z) : Prop :=
  let '(a, b, c) := x in
  let '(a', b', c') := y in
  (a < a' \/ (a = a' /\ (b < b' \/ (b = b' /\ c < c'))))%Z.

Definition triple_le (x y : Z * Z * Z) : Prop := triple_lt x y \/ x = y.

(** [lo <= v <= hi], each bound applying only when present. *)
Definition within (lo : option (Z * Z * Z)) (v : Z * Z * Z)
    (hi : option (Z * Z * Z)) : Prop :=
  (forall m, lo = Some m -> triple_le m v) /\
  (forall m, hi = Some m -> triple_le v m).

Definition below (lo : option (Z * Z * Z)) (v : Z * Z * Z) : Prop :=
  exists m, lo = Some m /\ triple_lt v m.

Definition above (v : Z * Z * Z) (hi : option (Z * Z * Z)) : Prop :=
  exists m, hi = Some m /\ triple_lt m v.

Definition triple_list (v : Z * Z * Z) : list Z :=
  let '(a, b, c) := v in [a; b; c].

Definition is_below (lo : option (Z * Z * Z)) (v : Z * Z * Z) : bool :=
  match lo with
  | Some m => tuple_lt (triple_list v) (triple_list m)
  | None => false
  end.

Definition is_above (v : Z * Z * Z) (hi : option (Z * Z * Z)) : bool :=
  match hi with
  | Some m => tuple_gt (triple_list v) (triple_list m)
  | None => false
  end.

Section VersionWords.

Variable cls : N -> uclass.
Variable lim : N.

(** The value of a decimal digit character. *)
Definition decimal_of (c : N) : Z :=
  match char_class cls c with
  | UDecimal d => digit_value d
  | _ => 0%Z
  end.

(** A non-empty run of decimal digits and the number it writes. *)
Definition digit_run (ds : pystr) : Prop :=
  ds <> [] /\ forallb (is_decimal cls) ds = true.

Definition run_value (ds : pystr) : Z :=
  fold_left (fun acc c => (10 * acc + decimal_of c)%Z) ds 0%Z.

(** [denotes s (major, minor, patch)]: [s] is [major.minor.patch] written
    with decimal digits, and nothing else. *)
Definition denotes (s : pystr) (v : Z * Z * Z) : Prop :=
  exists a b c,
    digit_run a /\ digit_run b /\ digit_run c /\
    s = a ++ DOT :: b ++ DOT :: c /\
    v = (run_value a, run_value b, run_value c).

(** The number of decimal digits in a text. *)
Definition digit_count (s : pystr) : N :=
  N.of_nat (length (List.filter (is_decimal cls) s)).

(** [convertible s]: no dot-separated piece of [s] has more decimal digits
    than [int] converts. *)
Definition convertible (s : pystr) : bool :=
  forallb (fun piece => negb (exceeds_limit lim (digit_count piece)))
    (split_on DOT s).

(** A bound is absent (the empty text) or a version whose numbers [int]
    converts. *)
Definition bound_denotes (s : pystr) (b : option (Z * Z * Z)) : Prop :=
  (s = [] /\ b = None) \/
  (exists v, denotes s v /\ convertible s = true /\ b = Some v).

(** [accepted_as s v]: the pattern matches [s] and its pieces are read as
    the integers of [v]. *)
Definition accepted_as (s : pystr) (v : Z * Z * Z) : Prop :=
  (exists m, re_match (version_pattern cls) s = Some m) /\
  ints (int cls lim) (split_on DOT s) = Returned (triple_list v).

(** A text one of whose dot-separated pieces [int] rejects. *)
Definition unparsable (s : pystr) : Prop :=
  exists piece,
    In piece (split_on DOT s) /\ int cls lim piece = Raised ValueError.

(** A bound as [version_check] reads it: absent when it is the empty text,
    else the integers of its dot-separated pieces, however many. *)
Definition bound_reads (s : pystr) (b : option (list Z)) : Prop :=
  (s = [] /\ b = None) \/
  (s <> [] /\
   exists l, ints (int cls lim) (split_on DOT s) = Returned l /\ b = Some l).

(** The verdicts of the two comparisons, on tuples of any length. *)
Definition is_below_list (lo : option (list Z)) (v : Z * Z * Z) : bool :=
  match lo with
  | Some l => tuple_lt (triple_list v) l
  | None => false
  end.

Definition is_above_list (v : Z * Z * Z) (hi : option (list Z)) : bool :=
  match hi with
  | Some l => tuple_gt (triple_list v) l
  | None => false
  end.

End VersionWords.

(** A Unicode database without digits or white space outside ASCII, for
    the examples. *)
Definition ascii_only : N -> uclass := fun _ => UOther.

(** ** Runs of [modify_main_js] *)

(** The faults that strike while the patched text is staged. *)
Definition staging_fault (f : fault) : bool :=
  match f with
  | TempCreateFails | ReadFails | WriteFails _ | CloseFails _ => true
  | _ => false
  end.

(** The temporary file once the patched text is in it. *)
Definition patched_file (bytes : pystr) : file :=
  {| f_data := bytes; f_mode := TEMP_MODE |}.

(** The files once [data] is in the temporary file: that file, new, beside
    the files there were. *)
Definition with_temporary (env : sysenv) (fs : fsys) (data : pystr) : fsys :=
  <[tmp_name env := Reg (fresh_ino fs) (patched_file data)]> fs.

(** The state of a run once the patched text is staged. *)
Definition staged (env : sysenv) (fs : fsys) (tr : list event)
    (bytes : pystr) : frame :=
  {| files := with_temporary env fs bytes;
     events := tr; tmp_path := Some (tmp_name env) |}.

(** Whether [shutil.move] onto an existing file is carried out by a copy:
    it is when [os.rename] is refused, as it always is on Windows for a
    destination that exists. *)
Definition replaced_by_copy (env : sysenv) : bool :=
  rename_refused env || pystr_eqb (env_system env) (py "Windows").

(** Where the backup of the script goes: [<main_path>.old], or into it when
    that is a directory. *)
Definition backup_target (env : sysenv) (fs : fsys) (main : pystr) : pystr :=
  copy_target env fs main (backup_path main).

(** The state of a run once the backup is made. *)
Definition backed_up (env : sysenv) (main : pystr) (fs : fsys)
    (tr : list event) (original : file) (bytes : pystr) : frame :=
  set_files
    (put (backup_target env fs main) original (with_temporary env fs bytes))
    (staged env fs tr bytes).

(** ** Example hosts and files *)

Definition demo_env (flt : fault) : sysenv :=
  {| env_system := py "Linux";
     tmp_stem := py "/tmp/tmp";
     tmp_entropy := fun i => N.of_nat i;
     decode_utf8 := fun bytes => Some bytes;
     encode_default := fun text => Some text;
     new_file_mode := 420;
     rename_refused := true;
     injected := flt |}.

Definition demo_main : pystr := py "/opt/Cursor/resources/app/out/main.js".

Definition demo_file (text : string) : file :=
  {| f_data := py text; f_mode := 420 |}.

Definition demo_fs (text : string) : fsys :=
  {[ demo_main := Reg 1 (demo_file text) ]}.

(** The same with a directory where the backup is to go. *)
Definition demo_fs_with_directory (text : string) : fsys :=
  <[backup_path demo_main := Dir]> (demo_fs text).

(** A version whose patch number is written with 4301 digits. *)
Definition long_version : pystr := py "1.2." ++ repeat 57 4301.

Definition demo_descriptor : pystr :=
  py "/opt/Cursor/resources/app/package.json".

(** A host on which the descriptor is missing and the script, a regular
    file, is not writable. *)
Definition host_without_descriptor : host :=
  {| platform_system := py "Linux";
     environ := fun _ => None;
     path_exists := fun p => pystr_eqb p demo_main;
     path_isfile := fun p => pystr_eqb p demo_main;
     access_w_ok := fun _ => false |}.

Definition descriptor_under (base : pystr) : pystr :=
  PosixPath.join base [py "package.json"].
Definition script_under (base : pystr) : pystr :=
  PosixPath.join base [py "out/main.js"].

(** A Linux host with an installation under the second root only. *)
Definition host_usr_share : host :=
  {| platform_system := py "Linux";
     environ := fun _ => None;
     path_exists :=
       fun p => pystr_eqb p (py "/usr/share/cursor/resources/app/package.json");
     path_isfile := fun _ => true;
     access_w_ok := fun _ => true |}.

Definition windows_descriptor : pystr :=
  py "Programs\Cursor\resources\app\package.json".
Definition windows_script : pystr :=
  py "Programs\Cursor\resources\app\out/main.js".

(** A Windows host without [LOCALAPPDATA] and without any file. *)
Definition host_windows_bare : host :=
  {| platform_system := py "Windows";
     environ := fun _ => None;
     path_exists := fun _ => false;
     path_isfile := fun _ => false;
     access_w_ok := fun _ => false |}.

(** ** Words of the further properties *)

(** [s.startswith(p)]. *)
Fixpoint starts_with (p s : pystr) : bool :=
  match p, s with
  | [], _ => true
  | _ :: _, [] => false
  | a :: p', b :: s' => N.eqb a b && starts_with p' s'
  end.

(** No occurrence of [head] in [pre ++ s] starts inside [pre]. *)
Definition head_free (head pre s : pystr) : bool :=
  forallb (fun i => negb (starts_with head (skipn i (pre ++ s))))
    (seq 0 (length pre)).

(** The heads of the two rules. *)
Definition rule_heads : list pystr :=
  [getMachineId_head; getMacMachineId_head].

(** The pattern of the rule with a given head. *)
Definition rule_pattern (head : pystr) : regex := lits head ++ fallback_tail.

(** Lexicographic order on (major, minor). *)
Definition pair_lt (x y : Z * Z) : Prop :=
  (fst x < fst y \/ (fst x = fst y /\ snd x < snd y))%Z.

Definition pair_le (x y : Z * Z) : Prop := pair_lt x y \/ x = y.

(** The systems [paths_map] has an entry for. *)
Definition supported_systems : list pystr :=
  [py "Darwin"; py "Windows"; py "Linux"].

(** * Properties *)

(** ** The patterns and templates as the source writes them *)

Example getMachineId_pattern_source :
  re_compile (fun _ => false)
    (py "async getMachineId\(\)\{return [^??]+\?\?([^}]+)\}")
  = Some getMachineId_pattern.
Proof. vm_compute. reflexivity. Qed.

Example getMacMachineId_pattern_source :
  re_compile (fun _ => false)
    (py "async getMacMachineId\(\)\{return [^??]+\?\?([^}]+)\}")
  = Some getMacMachineId_pattern.
Proof. vm_compute. reflexivity. Qed.

Example replacement_sources :
  keep_fallback getMachineId_head = py "async getMachineId(){return \1}" /\
  keep_fallback getMacMachineId_head
  = py "async getMacMachineId(){return \1}".
Proof. split; vm_compute; reflexivity. Qed.

Example version_pattern_source (cls : N -> uclass) :
  re_compile (is_decimal cls) (py "^\d+\.\d+\.\d+$")
  = Some (version_pattern cls).
Proof. reflexivity. Qed.

Example patch_minified :
  patch_text (py "x;async getMachineId(){return a??b}y") =
  py "x;async getMachineId(){return b}y".
Proof. vm_compute. reflexivity. Qed.

(** ** The matcher *)

Lemma lits_cons (c : N) (p : pystr) (re : regex) :
  lits (c :: p) ++ re = One (CChar c) :: (lits p ++ re).
Proof. reflexivity. Qed.

(** A pattern that starts with literal characters matches only a text that
    starts with them. *)
Lemma lits_inv (p : pystr) (re : regex) (g : groups) (pos : nat) (s : pystr)
    (m : match_obj) :
  match_here (lits p ++ re) g pos s = Some m ->
  exists s', s = p ++ s' /\
             match_here re g (pos + length p)%nat s' = Some m.
Proof.
  revert pos s. induction p as [|c p IH]; intros pos s H.
  - exists s. split; [reflexivity|]. now rewrite Nat.add_0_r.
  - rewrite lits_cons in H. cbn [match_here cclass_matches] in H.
    destruct s as [|x s]; [discriminate|].
    destruct (N.eqb_spec x c) as [->|]; [|discriminate].
    apply IH in H as (s' & -> & H).
    exists s'. split; [reflexivity|].
    cbn [length]. now rewrite Nat.add_succ_r.
Qed.

(** What a successful [k+] consumed: a non-empty run of the class, after
    which the rest of the pattern matched. *)
Lemma many_inv (k : cclass) (cont : nat -> pystr -> option match_obj)
    (pos : nat) (s : pystr) (m : match_obj) :
  many k cont pos s = Some m ->
  exists a s', s = a ++ s' /\ a <> [] /\
               forallb (cclass_matches k) a = true /\
               cont (pos + length a)%nat s' = Some m.
Proof.
  revert pos. induction s as [|c s IH]; intros pos H; [discriminate|].
  cbn [many] in H. destruct (cclass_matches k c) eqn:Hc; [|discriminate].
  destruct (many k cont (S pos) s) as [m'|] eqn:Hm.
  - injection H as <-. apply IH in Hm as (a & s' & -> & _ & Ha & Hk).
    exists (c :: a), s'. repeat split; [discriminate| |].
    + cbn [forallb]. now rewrite Hc, Ha.
    + cbn [length]. now rewrite Nat.add_succ_r.
  - exists [c], s. repeat split; [discriminate| |].
    + cbn [forallb]. now rewrite Hc.
    + cbn [length]. now rewrite Nat.add_1_r.
Qed.

(** A run of the class followed by a character outside it is taken whole
    when the rest of the pattern then matches. *)
Lemma many_run (k : cclass) (cont : nat -> pystr -> option match_obj)
    (a : pystr) (pos : nat) (s' : pystr) (m : match_obj) :
  a <> [] ->
  forallb (cclass_matches k) a = true ->
  match s' with
  | [] => True
  | c :: _ => cclass_matches k c = false
  end ->
  cont (pos + length a)%nat s' = Some m ->
  many k cont pos (a ++ s') = Some m.
Proof.
  intros Hne Ha Hstop. revert pos.
  induction a as [|c a IH]; intros pos Hk; [contradiction|].
  cbn [forallb] in Ha. apply andb_prop in Ha as [Hc Ha].
  cbn [app many]. rewrite Hc.
  destruct a as [|c' a].
  - cbn [app]. cbn [length] in Hk. rewrite Nat.add_1_r in Hk.
    destruct s' as [|x s']; cbn [many].
    + exact Hk.
    + now rewrite Hstop.
  - rewrite (IH ltac:(discriminate) Ha (S pos)); [reflexivity|].
    cbn [length] in *. now rewrite Nat.add_succ_r in Hk.
Qed.

Lemma has_qq_app (p t : pystr) :
  has_qq (p ++ QUESTION :: QUESTION :: t) = true.
Proof.
  induction p as [|a p IH]; [reflexivity|].
  cbn [app has_qq].
  destruct (p ++ QUESTION :: QUESTION :: t) as [|b l]; [discriminate|].
  rewrite IH. apply orb_true_r.
Qed.

Lemma has_qq_tail (c : N) (s : pystr) :
  has_qq (c :: s) = false -> has_qq s = false.
Proof.
  cbn [has_qq]. destruct s as [|b l]; [reflexivity|].
  intros H. now apply orb_false_elim in H as [_ H].
Qed.

(** Whatever the shared tail of the patterns matches contains [??]. *)
Lemma fallback_tail_inv (g : groups) (pos : nat) (s : pystr) (m : match_obj) :
  match_here fallback_tail g pos s = Some m ->
  exists a t, s = a ++ QUESTION :: QUESTION :: t.
Proof.
  unfold fallback_tail. cbn [match_here]. intros H.
  apply many_inv in H as (a & s' & -> & _ & _ & H).
  destruct s' as [|x s']; [discriminate|]. cbn [cclass_matches] in H.
  destruct (N.eqb_spec x QUESTION) as [->|]; [|discriminate].
  destruct s' as [|y s']; [discriminate|].
  destruct (N.eqb_spec y QUESTION) as [->|]; [|discriminate].
  now exists a, s'.
Qed.

Lemma no_qq_no_match (head : pystr) (g : groups) (pos : nat) (s : pystr) :
  has_qq s = false ->
  match_here (lits head ++ fallback_tail) g pos s = None.
Proof.
  intros Hq.
  destruct (match_here (lits head ++ fallback_tail) g pos s) as [m|] eqn:H;
    [|reflexivity].
  apply lits_inv in H as (s' & -> & H).
  apply fallback_tail_inv in H as (a & t & ->).
  rewrite app_assoc, has_qq_app in Hq. discriminate.
Qed.

Lemma no_qq_no_search (head : pystr) (pos : nat) (s : pystr) :
  has_qq s = false ->
  re_search_from (lits head ++ fallback_tail) pos s = false.
Proof.
  revert pos. induction s as [|c s IH]; intros pos Hq;
    cbn [re_search_from]; rewrite (no_qq_no_match head _ _ _ Hq);
    [reflexivity|].
  apply IH. exact (has_qq_tail _ _ Hq).
Qed.

(** A rule whose pattern matches nowhere leaves the text as it is. *)
Lemma sub_from_no_match (re : regex) (repl whole : pystr) (pos : nat)
    (s : pystr) :
  re_search_from re pos s = false ->
  sub_from re repl whole pos 0 s = s.
Proof.
  revert pos. induction s as [|c s IH]; intros pos H;
    cbn [re_search_from] in H; cbn [sub_from];
    destruct (match_here re no_groups pos _); try discriminate;
    [reflexivity|].
  now rewrite IH.
Qed.

Lemma re_sub_no_match (re : regex) (repl s : pystr) :
  re_search re s = false -> re_sub re repl s = s.
Proof. apply sub_from_no_match. Qed.

Lemma patch_text_no_match (text : pystr) :
  re_search getMachineId_pattern text = false ->
  re_search getMacMachineId_pattern text = false ->
  patch_text text = text.
Proof.
  intros H1 H2. unfold patch_text, apply_patterns, patterns.
  cbn [fold_left fst snd].
  now rewrite (re_sub_no_match _ _ _ H1), (re_sub_no_match _ _ _ H2).
Qed.

Lemma patch_text_no_qq (text : pystr) :
  has_qq text = false -> patch_text text = text.
Proof.
  intros H.
  apply patch_text_no_match; unfold re_search; now apply no_qq_no_search.
Qed.

(** ** How a rule changes the length of the text *)

(** The shape of a match of the shared tail: an expression without [?],
    the operator [??], a fallback without [}], and the closing brace. *)
Lemma fallback_tail_shape (g : groups) (pos : nat) (s : pystr)
    (m : match_obj) :
  match_here fallback_tail g pos s = Some m ->
  exists a x rest,
    s = a ++ QUESTION :: QUESTION :: x ++ RBRACE :: rest /\
    a <> [] /\ x <> [] /\
    m_end m = (pos + length a + 2 + length x + 1)%nat /\
    g_open (m_groups m) = Some (pos + length a + 2)%nat /\
    g_close (m_groups m) = Some (pos + length a + 2 + length x)%nat.
Proof.
  unfold fallback_tail. cbn [match_here]. intros H.
  apply many_inv in H as (a & s1 & -> & Ha & _ & H).
  cbn [cclass_matches] in H.
  destruct s1 as [|q1 s1]; [discriminate|].
  destruct (N.eqb_spec q1 QUESTION) as [->|]; [|discriminate].
  destruct s1 as [|q2 s1]; [discriminate|].
  destruct (N.eqb_spec q2 QUESTION) as [->|]; [|discriminate].
  apply many_inv in H as (x & s2 & -> & Hx & _ & H).
  cbn [match_here cclass_matches g_open] in H.
  destruct s2 as [|b rest]; [discriminate|].
  destruct (N.eqb_spec b RBRACE) as [->|]; [|discriminate].
  injection H as <-. exists a, x, rest. cbn [m_end m_groups g_open g_close].
  repeat split; try assumption; f_equal; lia.
Qed.

(** The template [<head>\1}] expands to the head, the fallback and the
    brace. *)
Lemma expand_keep_fallback (head x : pystr) :
  forallb (fun c => negb (N.eqb c BACKSLASH)) head = true ->
  expand (keep_fallback head) x = head ++ x ++ [RBRACE].
Proof.
  unfold keep_fallback. induction head as [|c head IH]; intros H.
  - cbn. reflexivity.
  - cbn [forallb] in H. apply andb_prop in H as [Hc Hh].
    apply negb_true_iff in Hc.
    cbn [app expand]. rewrite Hc. cbn [andb]. rewrite (IH Hh).
    destruct (head ++ [BACKSLASH; 49; RBRACE]) as [|d t] eqn:E;
      [destruct head; discriminate | reflexivity].
Qed.

(** Dropping the rest of a match is resuming after it. *)
Lemma sub_from_skip (re : regex) (repl whole : pystr) (k : nat) (pos : nat)
    (s : pystr) :
  (k <= length s)%nat ->
  sub_from re repl whole pos k s
  = sub_from re repl whole (pos + k) 0 (skipn k s).
Proof.
  revert pos s. induction k as [|k IH]; intros pos s Hk.
  - now rewrite Nat.add_0_r.
  - destruct s as [|c s]; [cbn in Hk; lia|].
    cbn [sub_from skipn]. rewrite IH by (cbn in Hk; lia).
    now rewrite Nat.add_succ_r.
Qed.

Section OneRule.

Variable head : pystr.
Hypothesis head_plain :
  forallb (fun c => negb (N.eqb c BACKSLASH)) head = true.

(** A rule never lengthens the text, and shortens it when its pattern
    matches somewhere. *)
Lemma sub_from_length (whole : pystr) (n : nat) :
  forall (s : pystr) (pos : nat),
    (length s <= n)%nat ->
    skipn pos whole = s ->
    (length (sub_from (lits head ++ fallback_tail) (keep_fallback head)
               whole pos 0 s) <= length s)%nat /\
    (re_search_from (lits head ++ fallback_tail) pos s = true ->
     (length (sub_from (lits head ++ fallback_tail) (keep_fallback head)
                whole pos 0 s) < length s)%nat).
Proof using head_plain.
  induction n as [|n IH]; intros s pos Hn Hs.
  - destruct s; [|cbn in Hn; lia]. cbn [sub_from re_search_from].
    destruct (match_here _ no_groups pos []) as [m|] eqn:Hm.
    + apply lits_inv in Hm as (s' & Hs' & Hm).
      apply fallback_tail_shape in Hm as (a & x & rest & -> & _).
      symmetry in Hs'. apply app_eq_nil in Hs' as [_ Hs'].
      apply app_eq_nil in Hs' as [_ Hs']. discriminate.
    + split; [cbn; lia | discriminate].
  - destruct s as [|c s']; [apply (IH [] pos); [cbn; lia | assumption]|].
    assert (Hs' : skipn (S pos) whole = s').
    { replace (S pos) with (pos + 1)%nat by lia.
      now rewrite <- drop_drop, Hs. }
    cbn [sub_from re_search_from].
    destruct (match_here _ no_groups pos (c :: s')) as [m|] eqn:Hm.
    + apply lits_inv in Hm as (t & Ht & Hm).
      apply fallback_tail_shape in Hm
        as (a & x & rest & -> & Ha & Hx & Hend & Hopen & Hclose).
      assert (Hcut : c :: s'
                     = (head ++ a ++ [QUESTION; QUESTION]) ++ x
                       ++ RBRACE :: rest)
        by (rewrite Ht, <- !app_assoc; reflexivity).
      assert (Hcut' : c :: s'
                      = (head ++ a ++ [QUESTION; QUESTION] ++ x ++ [RBRACE])
                        ++ rest)
        by (rewrite Ht, <- !app_assoc; cbn [app]; rewrite <- ?app_assoc;
            reflexivity).
      assert (Hg : group1 whole m = x).
      { unfold group1. rewrite Hopen, Hclose.
        replace (pos + length head + length a + 2 + length x
                 - (pos + length head + length a + 2))%nat
          with (length x) by lia.
        replace (pos + length head + length a + 2)%nat
          with (pos + (length head + length a + 2))%nat by lia.
        rewrite <- drop_drop, Hs, Hcut.
        rewrite drop_app_length'
          by (rewrite !length_app; cbn [length]; lia).
        apply take_app_length. }
      rewrite Hg, (expand_keep_fallback head x head_plain).
      assert (Hne : Nat.eqb (m_end m) pos = false)
        by (apply Nat.eqb_neq; lia).
      rewrite Hne.
      assert (Hlen : length (c :: s')
                     = (length head + length a + 2 + length x + 1
                        + length rest)%nat).
      { rewrite Hcut', !length_app. cbn [length]. lia. }
      cbn [length] in Hlen.
      rewrite sub_from_skip by lia.
      assert (Hrest : skipn (m_end m - pos - 1) s' = rest).
      { change s' with (skipn 1 (c :: s')). rewrite drop_drop, Hcut'.
        apply drop_app_length'. rewrite !length_app. cbn [length]. lia. }
      rewrite Hrest.
      destruct (IH rest (S pos + (m_end m - pos - 1))%nat) as [Hle _].
      { cbn [length] in Hn. lia. }
      { rewrite <- Hrest, <- Hs'. now rewrite drop_drop. }
      rewrite !length_app. cbn [length]. destruct a; [contradiction|].
      cbn [length] in *. split; [lia | intros _; lia].
    + destruct (IH s' (S pos)) as [Hle Hlt]; [cbn in Hn; lia | assumption|].
      cbn [length]. split; [lia | intros H; specialize (Hlt H); lia].
Qed.

Lemma re_sub_length (t : pystr) :
  (length (re_sub (lits head ++ fallback_tail) (keep_fallback head) t)
   <= length t)%nat /\
  (re_search (lits head ++ fallback_tail) t = true ->
   (length (re_sub (lits head ++ fallback_tail) (keep_fallback head) t)
    < length t)%nat).
Proof using head_plain.
  apply (sub_from_length t (length t) t 0%nat); [lia | reflexivity].
Qed.

End OneRule.

(** The rule set leaves a text unchanged exactly when neither pattern
    matches it. *)
Lemma patch_text_fixed_iff (text : pystr) :
  patch_text text = text <->
  re_search getMachineId_pattern text = false /\
  re_search getMacMachineId_pattern text = false.
Proof.
  split; [|intros [H1 H2]; now apply patch_text_no_match].
  unfold patch_text, apply_patterns, patterns. cbn [fold_left fst snd].
  intros Hfix.
  pose proof (re_sub_length getMachineId_head eq_refl text) as [Hle1 Hlt1].
  pose proof (re_sub_length getMacMachineId_head eq_refl
                (re_sub getMachineId_pattern
                   (keep_fallback getMachineId_head) text)) as [Hle2 Hlt2].
  fold getMachineId_pattern getMacMachineId_pattern in *.
  apply (f_equal (@length N)) in Hfix as Hlen.
  destruct (re_search getMachineId_pattern text) eqn:H1.
  - specialize (Hlt1 eq_refl). lia.
  - split; [reflexivity|].
    rewrite (re_sub_no_match _ _ _ H1) in *.
    destruct (re_search getMacMachineId_pattern text) eqn:H2;
      [|reflexivity].
    specialize (Hlt2 eq_refl). lia.
Qed.

(** ** The file operations of [modify_main_js] *)

Lemma backup_path_neq (main : pystr) : main <> backup_path main.
Proof.
  unfold backup_path. intros H. apply (f_equal (@length N)) in H.
  rewrite length_app in H. cbn in H. lia.
Qed.

Lemma temp_char_not_dot (r : N) : temp_char r <> DOT.
Proof.
  unfold temp_char, temp_alphabet, DOT.
  generalize (N.to_nat (r mod 37)). intros n.
  do 37 (destruct n as [|n]; [discriminate|]).
  destruct n; discriminate.
Qed.

(** A temporary name ends in eight characters of the alphabet, so it is
    never a path with the suffix [.old]. *)
Lemma tmp_name_not_backup (env : sysenv) (main : pystr) :
  tmp_name env <> backup_path main.
Proof.
  unfold tmp_name, backup_path. cbn [seq map]. intros H.
  change (py ".old") with ([DOT; 111; 108; 100]) in H.
  apply (f_equal (@rev N)) in H. rewrite !rev_app_distr in H.
  cbn [rev app] in H.
  injection H as _ _ _ H _. exact (temp_char_not_dot _ H).
Qed.

(** *** File numbers *)

(** The number of a new file is the number of no file there is. *)
Lemma fresh_ino_unused (fs : fsys) (p : pystr) (i : N) (f : file) :
  fs !! p = Some (Reg i f) -> i <> fresh_ino fs.
Proof.
  intros Hp E. apply (is_fresh (inos fs)). fold (fresh_ino fs). rewrite <- E.
  unfold inos. apply elem_of_list_to_set, list_elem_of_omap.
  exists (p, Reg i f). split; [|reflexivity].
  now apply elem_of_map_to_list.
Qed.

Lemma write_ino_lookup (i : N) (f : file) (fs : fsys) (p : pystr) :
  write_ino i f fs !! p
  = match fs !! p with
    | Some (Reg j g) => Some (if N.eqb j i then Reg j f else Reg j g)
    | Some Dir => Some Dir
    | None => None
    end.
Proof.
  unfold write_ino. rewrite lookup_fmap.
  destruct (fs !! p) as [[|j g]|]; reflexivity.
Qed.

(** Writing a file that has no name changes nothing. *)
Lemma write_ino_unused (i : N) (f : file) (fs : fsys) :
  (forall p j g, fs !! p = Some (Reg j g) -> j <> i) ->
  write_ino i f fs = fs.
Proof.
  intros H. apply map_eq. intros p. rewrite write_ino_lookup.
  destruct (fs !! p) as [[|j g]|] eqn:Hp; try reflexivity.
  destruct (N.eqb_spec j i) as [->|]; [|reflexivity].
  now destruct (H p i g Hp).
Qed.

Lemma write_ino_insert (i : N) (f g : file) (fs : fsys) (p : pystr) :
  write_ino i f (<[p := Reg i g]> fs) = <[p := Reg i f]> (write_ino i f fs).
Proof.
  unfold write_ino. rewrite fmap_insert. now rewrite N.eqb_refl.
Qed.

(** Writing the new file of [with_temporary]. *)
Lemma write_temporary (env : sysenv) (fs : fsys) (f g : file) :
  write_ino (fresh_ino fs) f (<[tmp_name env := Reg (fresh_ino fs) g]> fs)
  = <[tmp_name env := Reg (fresh_ino fs) f]> fs.
Proof.
  rewrite write_ino_insert. f_equal. apply write_ino_unused.
  intros p j h Hp. exact (fresh_ino_unused fs p j h Hp).
Qed.

(** *** What [put] leaves *)

Lemma put_target (fs : fsys) (t : pystr) (f : file) :
  os_path_isdir fs t = false ->
  exists j,
    put t f fs !! t = Some (Reg j f) /\
    forall p i g, fs !! p = Some (Reg i g) -> samefile fs p t = false ->
                  i <> j.
Proof.
  unfold os_path_isdir, put, samefile.
  destruct (fs !! t) as [[|j h]|] eqn:Ht; [discriminate| |]; intros _.
  - exists j. rewrite write_ino_lookup, Ht, N.eqb_refl.
    split; [reflexivity|]. intros p i g Hp. rewrite Hp.
    intros H E. subst. now rewrite N.eqb_refl in H.
  - exists (fresh_ino fs). rewrite lookup_insert_eq.
    split; [reflexivity|]. intros p i g Hp _.
    exact (fresh_ino_unused fs p i g Hp).
Qed.

Lemma put_other (fs : fsys) (t : pystr) (f : file) (p : pystr) (i : N)
    (g : file) :
  fs !! p = Some (Reg i g) -> samefile fs p t = false ->
  put t f fs !! p = Some (Reg i g).
Proof.
  unfold put, samefile. intros Hp. rewrite Hp.
  destruct (fs !! t) as [[|j h]|] eqn:Ht; intros Hs.
  - exact Hp.
  - rewrite write_ino_lookup, Hp. now rewrite Hs.
  - rewrite lookup_insert_ne; [exact Hp | congruence].
Qed.

Lemma put_reg (fs : fsys) (t : pystr) (f : file) (p : pystr) (i : N)
    (g : file) :
  fs !! p = Some (Reg i g) ->
  exists g', put t f fs !! p = Some (Reg i g').
Proof.
  unfold put. intros Hp.
  destruct (fs !! t) as [[|j h]|] eqn:Ht.
  - now exists g.
  - rewrite write_ino_lookup, Hp. destruct (N.eqb i j); eauto.
  - rewrite lookup_insert_ne; [now exists g | congruence].
Qed.

Lemma put_dir (fs : fsys) (t : pystr) (f : file) (p : pystr) :
  fs !! p = Some Dir -> put t f fs !! p = Some Dir.
Proof.
  unfold put. intros Hp.
  destruct (fs !! t) as [[|j h]|] eqn:Ht.
  - exact Hp.
  - now rewrite write_ino_lookup, Hp.
  - rewrite lookup_insert_ne; [exact Hp | congruence].
Qed.

(** *** Replacing a file by another *)

Lemma isdir_file (fs : fsys) (p : pystr) (i : N) (f : file) :
  fs !! p = Some (Reg i f) -> os_path_isdir fs p = false.
Proof. unfold os_path_isdir. now intros ->. Qed.

Lemma copy_target_file (env : sysenv) (fs : fsys) (src dst : pystr) :
  os_path_isdir fs dst = false -> copy_target env fs src dst = dst.
Proof. unfold copy_target. now intros ->. Qed.

Lemma samefile_files (fs : fsys) (a b : pystr) (i j : N) (f g : file) :
  fs !! a = Some (Reg i f) -> fs !! b = Some (Reg j g) ->
  samefile fs a b = N.eqb i j.
Proof. unfold samefile. now intros -> ->. Qed.

Section Replace.

Variable env : sysenv.
Variables (src dst : pystr) (st : frame) (i j : N) (g h : file).

Hypothesis Hsrc : files st !! src = Some (Reg i g).
Hypothesis Hdst : files st !! dst = Some (Reg j h).
Hypothesis Hij : i <> j.

Lemma replace_paths_differ : src <> dst.
Proof using Hsrc Hdst Hij. intros E. rewrite E in Hsrc. congruence. Qed.

(** When [os.rename] is refused the file is replaced by a copy. *)
Lemma copy_in_place :
  (shutil_copy2 env None src dst ;; os_unlink src) st
  = (Returned tt, set_files (delete src (write_ino j g (files st))) st).
Proof using Hsrc Hdst Hij.
  apply N.eqb_neq in Hij as Hij'.
  unfold bind, shutil_copy2.
  rewrite (copy_target_file env _ src dst (isdir_file _ _ _ _ Hdst)).
  rewrite (samefile_files _ _ _ _ _ _ _ Hsrc Hdst), Hij', Hsrc.
  rewrite (isdir_file _ _ _ _ Hdst). unfold put. rewrite Hdst.
  unfold os_unlink, set_files. cbn [files events tmp_path].
  rewrite write_ino_lookup, Hsrc, Hij'. reflexivity.
Qed.

(** Whether the replacement is made by a copy or by renaming. *)
Lemma shutil_move_how :
  shutil_move env None src dst st
  = (Returned tt,
     set_files
       (if replaced_by_copy env
        then delete src (write_ino j g (files st))
        else delete src (<[dst := Reg i g]> (files st))) st).
Proof using Hsrc Hdst Hij.
  pose proof copy_in_place as Hcopy.
  unfold shutil_move, replaced_by_copy. rewrite (isdir_file _ _ _ _ Hdst).
  unfold try_except, os_rename. rewrite Hdst, Hsrc.
  destruct (rename_refused env); [exact Hcopy|].
  destruct (pystr_eqb (env_system env) (py "Windows")); [exact Hcopy|].
  apply N.eqb_neq in Hij as ->. reflexivity.
Qed.

Lemma shutil_move_cases :
  shutil_move env None src dst st
  = (Returned tt, set_files (delete src (write_ino j g (files st))) st) \/
  shutil_move env None src dst st
  = (Returned tt,
     set_files (delete src (<[dst := Reg i g]> (files st))) st).
Proof using Hsrc Hdst Hij.
  rewrite shutil_move_how. destruct (replaced_by_copy env); auto.
Qed.

(** A move without fault: [dst] holds what [src] held, [src] is gone, and
    the paths that do not name the file [dst] named are as before. *)
Lemma move_into_place :
  exists st',
    shutil_move env None src dst st = (Returned tt, st') /\
    events st' = events st /\ tmp_path st' = tmp_path st /\
    file_at (files st') dst = Some g /\
    files st' !! src = None /\
    forall p n, p <> src -> p <> dst -> files st !! p = Some n ->
                node_ino n <> Some j -> files st' !! p = Some n.
Proof using Hsrc Hdst Hij.
  pose proof replace_paths_differ as Hne.
  destruct shutil_move_cases as [-> | ->]; eexists;
    (split; [reflexivity|]); unfold set_files, file_at;
    cbn [files events tmp_path]; repeat split.
  - rewrite lookup_delete_ne, write_ino_lookup, Hdst by congruence.
    now rewrite N.eqb_refl.
  - apply lookup_delete_eq.
  - intros p n Hp1 Hp2 Hp Hn.
    rewrite lookup_delete_ne, write_ino_lookup, Hp by congruence.
    destruct n as [|k x]; [reflexivity|].
    destruct (N.eqb_spec k j) as [->|]; [now destruct Hn | reflexivity].
  - now rewrite lookup_delete_ne, lookup_insert_eq by congruence.
  - apply lookup_delete_eq.
  - intros p n Hp1 Hp2 Hp _.
    now rewrite lookup_delete_ne, lookup_insert_ne by congruence.
Qed.

(** A replacement that fails before it touches [dst] changes nothing. *)
Lemma move_refused :
  shutil_move env (Some None) src dst st = (Raised IOError, st).
Proof using Hsrc Hdst Hij.
  apply N.eqb_neq in Hij as Hij'.
  unfold shutil_move. rewrite (isdir_file _ _ _ _ Hdst).
  unfold try_except, os_rename. rewrite Hsrc. unfold bind, shutil_copy2.
  rewrite (copy_target_file env _ src dst (isdir_file _ _ _ _ Hdst)).
  rewrite (samefile_files _ _ _ _ _ _ _ Hsrc Hdst), Hij', Hsrc.
  now rewrite (isdir_file _ _ _ _ Hdst).
Qed.

(** A replacement by copy that stops half way has truncated [dst]. *)
Lemma move_half_copied (n : nat) :
  shutil_move env (Some (Some n)) src dst st
  = (Raised IOError,
     set_files
       (write_ino j {| f_data := firstn n (f_data g); f_mode := f_mode h |}
          (files st)) st).
Proof using Hsrc Hdst Hij.
  apply N.eqb_neq in Hij as Hij'.
  unfold shutil_move. rewrite (isdir_file _ _ _ _ Hdst).
  unfold try_except, os_rename. rewrite Hsrc. unfold bind, shutil_copy2.
  rewrite (copy_target_file env _ src dst (isdir_file _ _ _ _ Hdst)).
  rewrite (samefile_files _ _ _ _ _ _ _ Hsrc Hdst), Hij', Hsrc.
  rewrite (isdir_file _ _ _ _ Hdst). unfold put, truncated, file_at.
  now rewrite Hdst.
Qed.

End Replace.

(** A failing replacement never returns. *)
Lemma shutil_move_fault_raises (env : sysenv) (w : option nat)
    (src dst : pystr) (st st' : frame) (r : unit) :
  shutil_move env (Some w) src dst st <> (Returned r, st').
Proof.
  unfold shutil_move, try_except, os_rename, bind, shutil_copy2.
  repeat case_match; congruence.
Qed.

Lemma shutil_copy2_inv (env : sysenv) (failure : option (option nat))
    (src dst : pystr) (st st' : frame) (r : unit) :
  shutil_copy2 env failure src dst st = (Returned r, st') ->
  failure = None /\
  samefile (files st) src (copy_target env (files st) src dst) = false /\
  os_path_isdir (files st) (copy_target env (files st) src dst) = false.
Proof.
  unfold shutil_copy2. intros H. repeat case_match; try congruence.
  repeat split.
Qed.

(** *** The steps of a run *)

Section FileRuns.

Variable env : sysenv.
Variables (main : pystr) (fs : fsys) (tr : list event).
Variables (im : N) (original : file) (text bytes : pystr).

Hypothesis Hmain : fs !! main = Some (Reg im original).
Hypothesis Hfresh : fs !! tmp_name env = None.
Hypothesis Hdecode : decode_utf8 env (f_data original) = Some text.
Hypothesis Hencode : encode_default env (patch_text text) = Some bytes.

Lemma tmp_not_main : tmp_name env <> main.
Proof using Hmain Hfresh. intros E. rewrite E in Hfresh. congruence. Qed.

Lemma fresh_not_main : N.eqb (fresh_ino fs) im = false.
Proof using Hmain.
  apply N.eqb_neq. intros E.
  exact (fresh_ino_unused fs main im original Hmain (eq_sym E)).
Qed.

Lemma with_temporary_tmp (data : pystr) :
  with_temporary env fs data !! tmp_name env
  = Some (Reg (fresh_ino fs) (patched_file data)).
Proof. apply lookup_insert_eq. Qed.

Lemma with_temporary_other (data : pystr) (p : pystr) :
  p <> tmp_name env -> with_temporary env fs data !! p = fs !! p.
Proof. intros H. apply lookup_insert_ne. congruence. Qed.

Lemma with_temporary_main (data : pystr) :
  with_temporary env fs data !! main = Some (Reg im original).
Proof using Hmain Hfresh.
  rewrite with_temporary_other; [exact Hmain|].
  intros E. exact (tmp_not_main (eq_sym E)).
Qed.

Lemma with_temporary_removed (data : pystr) :
  delete (tmp_name env) (with_temporary env fs data) = fs.
Proof using Hfresh.
  unfold with_temporary. rewrite delete_insert_eq. now apply delete_id.
Qed.

Lemma set_data_temporary (d d' : pystr) (tr' : list event)
    (tp : option pystr) :
  set_data (tmp_name env) d'
    {| files := with_temporary env fs d; events := tr'; tmp_path := tp |}
  = {| files := with_temporary env fs d'; events := tr'; tmp_path := tp |}.
Proof.
  unfold set_data, set_files. cbn [files events tmp_path].
  rewrite with_temporary_tmp. unfold with_temporary.
  now rewrite write_temporary.
Qed.

Lemma create_ok :
  injected env <> TempCreateFails ->
  NamedTemporaryFile env (enter fs tr)
  = (Returned (tmp_name env),
     {| files := with_temporary env fs []; events := tr; tmp_path := None |}).
Proof using Hfresh.
  intros Hf. unfold NamedTemporaryFile, enter, set_files, put.
  cbn [files events tmp_path]. rewrite Hfresh.
  destruct (injected env); try reflexivity. now destruct Hf.
Qed.

Lemma read_ok (d : pystr) (tr' : list event) (tp : option pystr) :
  injected env <> ReadFails ->
  read_text env main
    {| files := with_temporary env fs d; events := tr'; tmp_path := tp |}
  = (Returned text,
     {| files := with_temporary env fs d; events := tr'; tmp_path := tp |}).
Proof using Hmain Hfresh Hdecode.
  intros Hf. unfold read_text. cbn [files]. rewrite with_temporary_main.
  rewrite Hdecode. destruct (injected env); try reflexivity. now destruct Hf.
Qed.

Lemma stage_patched_ok :
  staging_fault (injected env) = false ->
  stage_patched env main (enter fs tr)
  = (Returned (tmp_name env), staged env fs tr bytes).
Proof using Hmain Hfresh Hdecode Hencode.
  intros Hf. unfold stage_patched. unfold bind at 1.
  rewrite create_ok by (intros E; now rewrite E in Hf).
  unfold bind at 1. rewrite read_ok by (intros E; now rewrite E in Hf).
  unfold bind, tmp_file_write, tmp_file_close, bind_tmp_path, ret.
  rewrite Hencode.
  destruct (injected env); try discriminate;
    rewrite set_data_temporary; reflexivity.
Qed.

(** The temporary file does not change where the backup goes, nor what
    [shutil.copy2] finds there. *)
Lemma isdir_with_temporary (d p : pystr) :
  os_path_isdir (with_temporary env fs d) p = os_path_isdir fs p.
Proof using Hfresh.
  unfold os_path_isdir. destruct (decide (p = tmp_name env)) as [->|Hp].
  - now rewrite with_temporary_tmp, Hfresh.
  - now rewrite with_temporary_other.
Qed.

Lemma copy_target_with_temporary (d : pystr) :
  copy_target env (with_temporary env fs d) main (backup_path main)
  = backup_target env fs main.
Proof using Hfresh.
  unfold backup_target, copy_target. now rewrite isdir_with_temporary.
Qed.

Lemma samefile_with_temporary (d p : pystr) :
  samefile (with_temporary env fs d) main p = samefile fs main p.
Proof using Hmain Hfresh.
  unfold samefile. rewrite with_temporary_main, Hmain.
  destruct (decide (p = tmp_name env)) as [->|Hp].
  - rewrite with_temporary_tmp, Hfresh. apply N.eqb_neq.
    intros E. exact (fresh_ino_unused fs main im original Hmain E).
  - now rewrite with_temporary_other.
Qed.

(** The temporary file is the same file as no other path. *)
Lemma samefile_temporary (d p : pystr) :
  p <> tmp_name env ->
  samefile (with_temporary env fs d) (tmp_name env) p = false.
Proof.
  intros Hp. unfold samefile.
  rewrite with_temporary_tmp, with_temporary_other by exact Hp.
  destruct (fs !! p) as [[|j g]|] eqn:E; try reflexivity.
  apply N.eqb_neq. intros E'.
  exact (fresh_ino_unused fs p j g E (eq_sym E')).
Qed.

Section Backup.

Hypothesis Hsame : samefile fs main (backup_target env fs main) = false.
Hypothesis Hdir : os_path_isdir fs (backup_target env fs main) = false.

Lemma copy_to_backup_ok :
  shutil_copy2 env None main (backup_path main) (staged env fs tr bytes)
  = (Returned tt, backed_up env main fs tr original bytes).
Proof using Hmain Hfresh Hsame Hdir.
  unfold shutil_copy2, staged, backed_up. cbn [files].
  rewrite copy_target_with_temporary, samefile_with_temporary, Hsame.
  now rewrite with_temporary_main, isdir_with_temporary, Hdir.
Qed.

(** A copy that fails leaves the script and the temporary file in
    place. *)
Lemma copy_to_backup_fails (w : option nat) :
  exists e st,
    shutil_copy2 env (Some w) main (backup_path main)
      (staged env fs tr bytes) = (Raised e, st) /\
    events st = tr /\ tmp_path st = Some (tmp_name env) /\
    files st !! main = Some (Reg im original) /\
    exists g, files st !! tmp_name env = Some (Reg (fresh_ino fs) g).
Proof using Hmain Hfresh Hsame Hdir.
  unfold shutil_copy2, staged. cbn [files].
  rewrite copy_target_with_temporary, samefile_with_temporary, Hsame.
  rewrite with_temporary_main, isdir_with_temporary, Hdir.
  destruct w as [n|]; do 2 eexists; (split; [reflexivity|]);
    cbn [files events tmp_path set_files]; repeat split.
  - apply put_other; [apply with_temporary_main|].
    now rewrite samefile_with_temporary.
  - eapply put_reg, with_temporary_tmp.
  - apply with_temporary_main.
  - eexists. apply with_temporary_tmp.
Qed.

Lemma backed_up_tmp_path :
  tmp_path (backed_up env main fs tr original bytes) = Some (tmp_name env).
Proof. reflexivity. Qed.

Lemma backed_up_events :
  events (backed_up env main fs tr original bytes) = tr.
Proof. reflexivity. Qed.

Lemma backed_up_main :
  files (backed_up env main fs tr original bytes) !! main
  = Some (Reg im original).
Proof using Hmain Hfresh Hsame.
  unfold backed_up, set_files. cbn [files].
  apply put_other; [apply with_temporary_main|].
  now rewrite samefile_with_temporary.
Qed.

Lemma backed_up_tmp :
  exists g,
    files (backed_up env main fs tr original bytes) !! tmp_name env
    = Some (Reg (fresh_ino fs) g) /\
    (backup_target env fs main <> tmp_name env -> g = patched_file bytes).
Proof using Hfresh.
  unfold backed_up, set_files. cbn [files].
  destruct (decide (backup_target env fs main = tmp_name env)) as [E|Hne].
  - destruct (put_reg (with_temporary env fs bytes)
                (backup_target env fs main) original (tmp_name env)
                _ _ (with_temporary_tmp bytes)) as [g Hg].
    exists g. split; [exact Hg | contradiction].
  - exists (patched_file bytes). split; [|reflexivity].
    apply put_other; [apply with_temporary_tmp|].
    now apply samefile_temporary.
Qed.

(** The backup holds the original, under a number that is not the
    script's. *)
Lemma backed_up_target :
  exists j,
    files (backed_up env main fs tr original bytes)
      !! backup_target env fs main = Some (Reg j original) /\
    j <> im.
Proof using Hmain Hfresh Hsame Hdir.
  unfold backed_up, set_files. cbn [files].
  destruct (put_target (with_temporary env fs bytes)
              (backup_target env fs main) original) as (j & Hj & Hother).
  - now rewrite isdir_with_temporary.
  - exists j. split; [exact Hj|]. intros E.
    refine (Hother main im original (with_temporary_main bytes) _ (eq_sym E)).
    now rewrite samefile_with_temporary.
Qed.

Lemma backed_up_dir (p : pystr) :
  fs !! p = Some Dir ->
  files (backed_up env main fs tr original bytes) !! p = Some Dir.
Proof using Hfresh.
  intros Hp. unfold backed_up, set_files. cbn [files]. apply put_dir.
  rewrite with_temporary_other; [exact Hp | congruence].
Qed.

(** A run without fault: the result and what it leaves. *)
Lemma modify_main_js_no_fault :
  injected env = NoFault ->
  exists st' moved,
    modify_main_js env main fs tr = (Returned true, st') /\
    shutil_move env None (tmp_name env) main
      (backed_up env main fs tr original bytes) = (Returned tt, moved) /\
    files st' = files moved /\
    events st' = tr ++ [LogInfo ModifySucceeded] /\
    files st' !! tmp_name env = None /\
    (forall p, fs !! p = Some Dir -> files st' !! p = Some Dir) /\
    (backup_target env fs main <> tmp_name env ->
     file_at (files st') main = Some (patched_file bytes) /\
     file_at (files st') (backup_target env fs main) = Some original).
Proof using Hmain Hfresh Hdecode Hencode Hsame Hdir.
  intros Hf.
  destruct backed_up_tmp as (g & Htmp & Hg).
  destruct backed_up_target as (j & Htarget & Hj).
  destruct (move_into_place env (tmp_name env) main
              (backed_up env main fs tr original bytes)
              (fresh_ino fs) im g original Htmp backed_up_main)
    as (moved & Hmove & Hev & Htp & Hm & Ht & Hother).
  { intros E. exact (fresh_ino_unused fs main im original Hmain (eq_sym E)). }
  unfold modify_main_js, try_except, modify_main_js_body.
  unfold bind at 1. rewrite stage_patched_ok by now rewrite Hf.
  unfold backup_failure, move_failure. rewrite Hf.
  unfold bind at 1. rewrite copy_to_backup_ok.
  unfold bind at 1. rewrite Hmove.
  unfold bind, with_events, logger_info, ret.
  eexists. exists moved. split; [reflexivity|]. cbn [files events].
  split; [reflexivity|]. split; [reflexivity|].
  split; [now rewrite Hev|]. split; [exact Ht|]. split.
  - intros p Hp. apply Hother.
    + intros ->. congruence.
    + intros ->. congruence.
    + now apply backed_up_dir.
    + discriminate.
  - intros Hne. split; [now rewrite Hm, (Hg Hne)|].
    assert (Hnm : backup_target env fs main <> main).
    { intros E. rewrite E in Htarget.
      rewrite backed_up_main in Htarget. congruence. }
    unfold file_at. rewrite (Hother _ _ Hne Hnm Htarget); [reflexivity|].
    cbn [node_ino]. congruence.
Qed.

(** A failed backup copy is rolled back: the temporary file is removed
    and the script is as before. *)
Lemma modify_main_js_backup_fails (w : option nat) :
  injected env = BackupFails w ->
  exists st,
    modify_main_js env main fs tr = (Returned false, st) /\
    files st !! tmp_name env = None /\
    files st !! main = Some (Reg im original).
Proof using Hmain Hfresh Hdecode Hencode Hsame Hdir.
  intros Hf. pose proof tmp_not_main as Hne.
  destruct (copy_to_backup_fails w) as (e & st & Hcopy & Hev & Htp & Hm & g & Ht).
  unfold modify_main_js, try_except, modify_main_js_body.
  unfold bind at 1. rewrite stage_patched_ok by now rewrite Hf.
  unfold backup_failure. rewrite Hf. unfold bind at 1. rewrite Hcopy.
  unfold modify_main_js_handler, bind, with_events, logger_error,
    local_tmp_path, os_unlink, ret, set_files.
  cbn [files events tmp_path]. rewrite Htp. cbn [files events tmp_path].
  rewrite Ht.
  eexists. split; [reflexivity|]. cbn [files].
  split; [apply lookup_delete_eq|]. now rewrite lookup_delete_ne.
Qed.

(** A replacement that fails before it touches the script is rolled back
    as well. *)
Lemma modify_main_js_move_refused :
  injected env = MoveFails None ->
  exists st,
    modify_main_js env main fs tr = (Returned false, st) /\
    files st !! tmp_name env = None /\
    files st !! main = Some (Reg im original).
Proof using Hmain Hfresh Hdecode Hencode Hsame Hdir.
  intros Hf. pose proof tmp_not_main as Hne.
  destruct backed_up_tmp as (g & Htmp & Hg).
  unfold modify_main_js, try_except, modify_main_js_body.
  unfold bind at 1. rewrite stage_patched_ok by now rewrite Hf.
  unfold backup_failure, move_failure. rewrite Hf.
  unfold bind at 1. rewrite copy_to_backup_ok. unfold bind at 1.
  rewrite (move_refused env (tmp_name env) main _ (fresh_ino fs) im g
             original Htmp backed_up_main)
    by (intros E;
        exact (fresh_ino_unused fs main im original Hmain (eq_sym E))).
  unfold modify_main_js_handler, bind, with_events, logger_error,
    local_tmp_path, os_unlink, ret, set_files.
  cbn [files events tmp_path]. rewrite backed_up_tmp_path.
  cbn [files events tmp_path]. rewrite Htmp.
  eexists. split; [reflexivity|]. cbn [files].
  split; [apply lookup_delete_eq|].
  rewrite lookup_delete_ne by exact Hne. apply backed_up_main.
Qed.

(** A replacement by copy that stops half way has already truncated the
    script. *)
Lemma modify_main_js_move_half_copied (n : nat) :
  injected env = MoveFails (Some n) ->
  backup_target env fs main <> tmp_name env ->
  exists st,
    modify_main_js env main fs tr = (Returned false, st) /\
    files st !! tmp_name env = None /\
    file_at (files st) main
    = Some {| f_data := firstn n bytes; f_mode := f_mode original |}.
Proof using Hmain Hfresh Hdecode Hencode Hsame Hdir.
  intros Hf Htarget. pose proof tmp_not_main as Hne.
  destruct backed_up_tmp as (g & Htmp & Hg). rewrite (Hg Htarget) in Htmp.
  unfold modify_main_js, try_except, modify_main_js_body.
  unfold bind at 1. rewrite stage_patched_ok by now rewrite Hf.
  unfold backup_failure, move_failure. rewrite Hf.
  unfold bind at 1. rewrite copy_to_backup_ok. unfold bind at 1.
  rewrite (move_half_copied env (tmp_name env) main _ (fresh_ino fs) im _
             original Htmp backed_up_main)
    by (intros E;
        exact (fresh_ino_unused fs main im original Hmain (eq_sym E))).
  unfold modify_main_js_handler, bind, with_events, logger_error,
    local_tmp_path, os_unlink, ret, set_files.
  cbn [files events tmp_path]. rewrite backed_up_tmp_path.
  cbn [files events tmp_path].
  rewrite write_ino_lookup, Htmp, fresh_not_main.
  eexists. split; [reflexivity|]. cbn [files].
  split; [apply lookup_delete_eq|]. unfold file_at.
  rewrite lookup_delete_ne, write_ino_lookup, backed_up_main by exact Hne.
  now rewrite N.eqb_refl.
Qed.

End Backup.

(** The text is written before [tmp_path] is bound: when the write fails
    the handler finds no [tmp_path] and removes nothing. *)
Lemma modify_main_js_write_fails (n : nat) :
  injected env = WriteFails n ->
  modify_main_js env main fs tr =
  (Returned false,
   {| files := with_temporary env fs (firstn n bytes);
      events := tr ++ [LogError (ModifyFailed IOError)];
      tmp_path := None |}).
Proof using Hmain Hfresh Hdecode Hencode.
  intros Hf. unfold modify_main_js, try_except, modify_main_js_body,
    stage_patched.
  unfold bind at 1. unfold bind at 1.
  rewrite create_ok by (intros E; now rewrite E in Hf).
  unfold bind at 1. rewrite read_ok by (intros E; now rewrite E in Hf).
  unfold bind, tmp_file_write. rewrite Hencode, Hf.
  now rewrite set_data_temporary.
Qed.

(** A failed flush on close is rolled back: the temporary file is removed
    and the files are as before. *)
Lemma modify_main_js_close_fails (n : nat) :
  injected env = CloseFails n ->
  modify_main_js env main fs tr =
  (Returned false,
   {| files := fs;
      events := tr ++ [LogError (ModifyFailed IOError)];
      tmp_path := Some (tmp_name env) |}).
Proof using Hmain Hfresh Hdecode Hencode.
  intros Hf. unfold modify_main_js, try_except, modify_main_js_body,
    stage_patched.
  unfold bind at 1. unfold bind at 1.
  rewrite create_ok by (intros E; now rewrite E in Hf).
  unfold bind at 1. rewrite read_ok by (intros E; now rewrite E in Hf).
  unfold bind, tmp_file_write, bind_tmp_path, tmp_file_close, file_at.
  rewrite Hencode, Hf, set_data_temporary. cbn [files events tmp_path].
  rewrite with_temporary_tmp, set_data_temporary.
  unfold modify_main_js_handler, bind, with_events, logger_error,
    local_tmp_path, os_unlink, ret, set_files.
  cbn [files events tmp_path].
  now rewrite with_temporary_tmp, with_temporary_removed.
Qed.

End FileRuns.

(** A script that cannot be read ends like a failed write: the temporary
    file exists by then, [tmp_path] is not bound yet, and nothing is
    removed. *)
Lemma modify_main_js_read_fails (env : sysenv) (main : pystr)
    (fs : fsys) (tr : list event) (im : N) (original : file) :
  fs !! main = Some (Reg im original) ->
  fs !! tmp_name env = None ->
  injected env = ReadFails ->
  modify_main_js env main fs tr
  = (Returned false,
     {| files := with_temporary env fs [];
        events := tr ++ [LogError (ModifyFailed IOError)];
        tmp_path := None |}).
Proof.
  intros Hmain Hfresh Hf.
  unfold modify_main_js, try_except, modify_main_js_body, stage_patched.
  unfold bind at 1. unfold bind at 1.
  rewrite (create_ok env fs tr Hfresh) by (intros E; now rewrite E in Hf).
  unfold bind, read_text. cbn [files].
  rewrite (with_temporary_main env main fs im original Hmain Hfresh), Hf.
  reflexivity.
Qed.

(** So does an encoding error of [tmp_file.write]. *)
Lemma modify_main_js_encode_fails (env : sysenv) (main : pystr)
    (fs : fsys) (tr : list event) (im : N) (original : file)
    (text : pystr) :
  fs !! main = Some (Reg im original) ->
  fs !! tmp_name env = None ->
  decode_utf8 env (f_data original) = Some text ->
  encode_default env (patch_text text) = None ->
  injected env = NoFault ->
  modify_main_js env main fs tr
  = (Returned false,
     {| files := with_temporary env fs [];
        events := tr ++ [LogError (ModifyFailed UnicodeEncodeError)];
        tmp_path := None |}).
Proof.
  intros Hmain Hfresh Hdec Henc Hf.
  unfold modify_main_js, try_except, modify_main_js_body, stage_patched.
  unfold bind at 1. unfold bind at 1.
  rewrite (create_ok env fs tr Hfresh) by (intros E; now rewrite E in Hf).
  unfold bind at 1.
  rewrite (read_ok env main fs im original text Hmain Hfresh Hdec)
    by (intros E; now rewrite E in Hf).
  unfold bind, tmp_file_write. now rewrite Henc.
Qed.

(** *** What a successful run went through *)

Lemma handler_not_true (e : exn) (st st' : frame) :
  modify_main_js_handler e st <> (Returned true, st').
Proof.
  unfold modify_main_js_handler, bind, with_events, logger_error,
    local_tmp_path, os_unlink, ret.
  repeat case_match; congruence.
Qed.

Lemma stage_patched_inv (env : sysenv) (main : pystr) (fs : fsys)
    (tr : list event) (im : N) (original : file) (name : pystr)
    (st : frame) :
  fs !! main = Some (Reg im original) ->
  stage_patched env main (enter fs tr) = (Returned name, st) ->
  staging_fault (injected env) = false /\
  fs !! tmp_name env = None /\
  exists text bytes,
    decode_utf8 env (f_data original) = Some text /\
    encode_default env (patch_text text) = Some bytes.
Proof.
  intros Hmain H.
  destruct (fs !! tmp_name env) as [n|] eqn:Hfresh.
  { unfold stage_patched, bind, NamedTemporaryFile, enter in H.
    cbn [files] in H. rewrite Hfresh in H.
    destruct (injected env); discriminate. }
  pose proof (tmp_not_main env main fs im original Hmain Hfresh) as Hne.
  unfold stage_patched, bind, NamedTemporaryFile, read_text, tmp_file_write,
    tmp_file_close, bind_tmp_path, enter, ret, set_files, put in H.
  cbn [files events tmp_path] in H. rewrite Hfresh in H.
  destruct (injected env) eqn:Hf; cbn [files events tmp_path] in H;
    try discriminate;
    rewrite ?lookup_insert_ne, ?Hmain in H by exact Hne;
    try discriminate;
    (destruct (decode_utf8 env (f_data original)) as [text|] eqn:Hdec;
     [|discriminate]);
    (destruct (encode_default env (patch_text text)) as [bytes|] eqn:Henc;
     [|discriminate]);
    try discriminate;
    try (repeat split; eauto).
  all: repeat case_match; discriminate.
Qed.

(** Only a run without fault on a readable script, with a place for the
    backup, reports success. *)
Lemma modify_main_js_success_inv (env : sysenv) (main : pystr)
    (fs : fsys) (tr : list event) (im : N) (original : file)
    (st' : frame) :
  fs !! main = Some (Reg im original) ->
  modify_main_js env main fs tr = (Returned true, st') ->
  exists text bytes,
    injected env = NoFault /\
    fs !! tmp_name env = None /\
    decode_utf8 env (f_data original) = Some text /\
    encode_default env (patch_text text) = Some bytes /\
    samefile fs main (backup_target env fs main) = false /\
    os_path_isdir fs (backup_target env fs main) = false.
Proof.
  intros Hmain H. unfold modify_main_js, try_except in H.
  destruct (modify_main_js_body env main (enter fs tr)) as [[b|e] s] eqn:Hb;
    [|now apply handler_not_true in H].
  unfold modify_main_js_body in Hb. unfold bind at 1 in Hb.
  destruct (stage_patched env main (enter fs tr)) as [[name|e] s1] eqn:Hs;
    [|discriminate].
  destruct (stage_patched_inv env main fs tr im original name s1 Hmain Hs)
    as (Hstage & Hfresh & text & bytes & Hdec & Henc).
  rewrite (stage_patched_ok env main fs tr im original text bytes
             Hmain Hfresh Hdec Henc Hstage) in Hs.
  injection Hs as <- <-.
  unfold bind at 1 in Hb.
  destruct (shutil_copy2 env (backup_failure env) main (backup_path main)
              (staged env fs tr bytes)) as [[[]|e] s2] eqn:Hc;
    [|discriminate].
  apply shutil_copy2_inv in Hc as (Hbf & Hsame & Hdir).
  unfold staged in Hsame, Hdir. cbn [files] in Hsame, Hdir.
  rewrite (copy_target_with_temporary env main fs Hfresh) in Hsame, Hdir.
  rewrite (samefile_with_temporary env main fs im original Hmain Hfresh)
    in Hsame.
  rewrite (isdir_with_temporary env fs Hfresh) in Hdir.
  unfold bind at 1 in Hb.
  destruct (shutil_move env (move_failure env) (tmp_name env) main s2)
    as [[[]|e] s3] eqn:Hm; [|discriminate].
  exists text, bytes. repeat split; try assumption.
  unfold backup_failure in Hbf. unfold move_failure in Hm.
  destruct (injected env); try discriminate; try reflexivity.
  now apply shutil_move_fault_raises in Hm.
Qed.

(** ** The example files *)

Lemma file_at_inv (fs : fsys) (p : pystr) (f : file) :
  file_at fs p = Some f -> exists i, fs !! p = Some (Reg i f).
Proof.
  unfold file_at. destruct (fs !! p) as [[|i g]|]; try discriminate.
  intros [= ->]. now exists i.
Qed.

Lemma demo_main_present (text : string) :
  demo_fs text !! demo_main = Some (Reg 1 (demo_file text)).
Proof. apply lookup_singleton_eq. Qed.

Lemma demo_tmp_fresh (flt : fault) (text : string) :
  demo_fs text !! tmp_name (demo_env flt) = None.
Proof. apply lookup_singleton_ne. vm_compute. discriminate. Qed.

Lemma demo_backup_free (text : string) :
  demo_fs text !! backup_path demo_main = None.
Proof. apply lookup_singleton_ne. vm_compute. discriminate. Qed.

Lemma demo_backup_not_directory (text : string) :
  os_path_isdir (demo_fs text) (backup_path demo_main) = false.
Proof. unfold os_path_isdir. now rewrite demo_backup_free. Qed.

Lemma demo_backup_not_script (text : string) :
  samefile (demo_fs text) demo_main (backup_path demo_main) = false.
Proof.
  unfold samefile. now rewrite demo_main_present, demo_backup_free.
Qed.

(** ** Claims on [modify_main_js] *)

(** C1, as stated, fails: with a directory at [<main_path>.old] the run
    returns [True], [shutil.copy2] having put the copy into that directory
    under the script's base name; afterwards [<main_path>.old] is still
    the directory and not a file holding the original. *)
Lemma backup_into_directory :
  let fs := demo_fs_with_directory "function foo(){return 1}" in
  let run := modify_main_js (demo_env NoFault) demo_main fs [] in
  file_at fs demo_main = Some (demo_file "function foo(){return 1}") /\
  fst run = Returned true /\
  files (snd run) !! backup_path demo_main = Some Dir /\
  file_at (files (snd run)) (backup_path demo_main) = None /\
  file_at (files (snd run))
    (py "/opt/Cursor/resources/app/out/main.js.old/main.js")
  = Some (demo_file "function foo(){return 1}").
Proof. vm_compute. repeat split. Qed.

(** C1, amended.  Backup fidelity: when [modify_main_js] returns [True]
    on an existing script and [<main_path>.old] was not a directory, the
    file [<main_path>.old] holds exactly what the script held before the
    run (bytes and permission bits).  When [<main_path>.old] was a
    directory it still is one, and the copy is in it under the script's
    base name (unless that path is the one the temporary file was given).
    In both cases the backup is copied from the script while the script is
    still the original: after the patched text was staged in the temporary
    file and before [shutil.move] replaces the script.  Nothing here
    depends on whether a rule matched. *)
Theorem backup_fidelity (env : sysenv) (main : pystr)
    (fs : fsys) (tr : list event) (original : file) (st' : frame) :
  file_at fs main = Some original ->
  modify_main_js env main fs tr = (Returned true, st') ->
  (os_path_isdir fs (backup_path main) = false ->
   file_at (files st') (backup_path main) = Some original) /\
  (os_path_isdir fs (backup_path main) = true ->
   os_path_isdir (files st') (backup_path main) = true /\
   (backup_target env fs main <> tmp_name env ->
    file_at (files st') (backup_target env fs main) = Some original)) /\
  exists staged backed_up moved,
    stage_patched env main (enter fs tr) = (Returned (tmp_name env), staged) /\
    file_at (files staged) main = Some original /\
    shutil_copy2 env (backup_failure env) main (backup_path main) staged
      = (Returned tt, backed_up) /\
    file_at (files backed_up) main = Some original /\
    file_at (files backed_up) (backup_target env fs main) = Some original /\
    shutil_move env (move_failure env) (tmp_name env) main backed_up
      = (Returned tt, moved) /\
    files st' = files moved.
Proof.
  intros Hfile Hrun. destruct (file_at_inv fs main original Hfile) as [im Hmain].
  destruct (modify_main_js_success_inv _ _ _ _ _ _ _ Hmain Hrun)
    as (text & bytes & Hf & Hfresh & Hdec & Henc & Hsame & Hdir).
  destruct (modify_main_js_no_fault env main fs tr im original text bytes
              Hmain Hfresh Hdec Henc Hsame Hdir Hf)
    as (st & moved & Hrun' & Hmove & Hfiles & _ & _ & Hdirs & Hleft).
  rewrite Hrun' in Hrun. injection Hrun as <-.
  split; [|split].
  - intros Hnd. revert Hleft. unfold backup_target.
    rewrite (copy_target_file env fs main _ Hnd). intros Hleft.
    apply Hleft. intros E. exact (tmp_name_not_backup env main (eq_sym E)).
  - intros Hd. split; [|intros Hne; now apply Hleft].
    unfold os_path_isdir in *.
    destruct (fs !! backup_path main) as [[|]|] eqn:E; try discriminate.
    now rewrite (Hdirs _ E).
  - exists (staged env fs tr bytes), (backed_up env main fs tr original bytes),
      moved.
    unfold backup_failure, move_failure. rewrite Hf.
    split; [apply (stage_patched_ok env main fs tr im original text bytes);
            try assumption; now rewrite Hf|].
    split; [unfold staged, file_at; cbn [files];
            now rewrite (with_temporary_main env main fs im original)|].
    split; [now apply (copy_to_backup_ok env main fs tr im original)|].
    split; [unfold file_at;
            now rewrite (backed_up_main env main fs tr im original bytes)|].
    split; [|split; assumption].
    destruct (backed_up_target env main fs tr im original bytes
                Hmain Hfresh Hsame Hdir) as (j & Hj & _).
    unfold file_at. now rewrite Hj.
Qed.

Lemma backup_fidelity_witness :
  file_at
    (files (snd (modify_main_js (demo_env NoFault) demo_main
                   (demo_fs "function foo(){return 1}") [])))
    (backup_path demo_main)
  = Some (demo_file "function foo(){return 1}").
Proof.
  refine (proj1 (backup_fidelity (demo_env NoFault) demo_main
                   (demo_fs "function foo(){return 1}") []
                   (demo_file "function foo(){return 1}") _ _ _)
            (demo_backup_not_directory _)).
  - unfold file_at. now rewrite demo_main_present.
  - vm_compute. reflexivity.
Defined.

(** C2.  Rollback after a failed write of the temporary file.  When
    [tmp_file.write] raises, be it for an I/O error or because the text
    cannot be encoded, [modify_main_js] returns [False] and the script is
    unchanged, but the temporary file stays on disk: [tmp_path] is bound
    only after the write, so the handler finds it unbound and removes
    nothing. *)
Theorem write_failure_keeps_temporary_file (env : sysenv) (main : pystr)
    (fs : fsys) (tr : list event) (original : file) (text : pystr) :
  file_at fs main = Some original ->
  fs !! tmp_name env = None ->
  decode_utf8 env (f_data original) = Some text ->
  (encode_default env (patch_text text) = None /\ injected env = NoFault) \/
  (exists bytes n,
      encode_default env (patch_text text) = Some bytes /\
      injected env = WriteFails n) ->
  exists st,
    modify_main_js env main fs tr = (Returned false, st) /\
    tmp_path st = None /\
    file_at (files st) main = Some original /\
    is_Some (file_at (files st) (tmp_name env)).
Proof.
  intros Hfile Hfresh Hdec Hwrite.
  destruct (file_at_inv fs main original Hfile) as [im Hmain].
  destruct Hwrite as [[Henc Hf] | (bytes & n & Henc & Hf)]; eexists; split.
  - exact (modify_main_js_encode_fails env main fs tr im original text
             Hmain Hfresh Hdec Henc Hf).
  - cbn [files tmp_path]. unfold file_at.
    rewrite (with_temporary_main env main fs im original Hmain Hfresh).
    rewrite with_temporary_tmp. repeat split. now eexists.
  - exact (modify_main_js_write_fails env main fs tr im original text bytes
             Hmain Hfresh Hdec Henc n Hf).
  - cbn [files tmp_path]. unfold file_at.
    rewrite (with_temporary_main env main fs im original Hmain Hfresh).
    rewrite with_temporary_tmp. repeat split. now eexists.
Qed.

Lemma write_failure_keeps_temporary_file_witness :
  exists st,
    modify_main_js (demo_env (WriteFails 0)) demo_main
      (demo_fs "async getMachineId(){return a??b}") [] = (Returned false, st) /\
    tmp_path st = None /\
    file_at (files st) demo_main
    = Some (demo_file "async getMachineId(){return a??b}") /\
    is_Some (file_at (files st) (tmp_name (demo_env (WriteFails 0)))).
Proof.
  apply (write_failure_keeps_temporary_file (demo_env (WriteFails 0))
           demo_main (demo_fs "async getMachineId(){return a??b}") []
           (demo_file "async getMachineId(){return a??b}")
           (py "async getMachineId(){return a??b}")).
  - unfold file_at. now rewrite demo_main_present.
  - apply demo_tmp_fresh.
  - reflexivity.
  - right.
    exists (patch_text (py "async getMachineId(){return a??b}")), 0%nat.
    split; reflexivity.
Defined.

(** ** Claims on the patch rules *)

(** C3, as stated, fails: a fallback that itself contains [??] is
    rewritten again by a second run. *)
Lemma patch_text_not_idempotent :
  patch_text (patch_text (py "async getMachineId(){return a??b??c}"))
  <> patch_text (py "async getMachineId(){return a??b??c}").
Proof. vm_compute. discriminate. Qed.

(** C3, amended.  For every input text, the content after a second
    application of the rule set is identical to the content after the
    first application exactly when neither pattern matches the content
    after the first application; this is the case in particular whenever
    that content contains no [??].  (It is not the case for every input:
    the patterns can match the output of a replacement, as when the kept
    fallback contains [??].) *)
Theorem second_patch_noop_iff (content : pystr) :
  (patch_text (patch_text content) = patch_text content <->
   re_search getMachineId_pattern (patch_text content) = false /\
   re_search getMacMachineId_pattern (patch_text content) = false) /\
  (has_qq (patch_text content) = false ->
   patch_text (patch_text content) = patch_text content).
Proof.
  split; [apply patch_text_fixed_iff | apply patch_text_no_qq].
Qed.

Lemma second_patch_noop_iff_witness :
  patch_text (patch_text (py "x;async getMachineId(){return a??b}y"))
  = patch_text (py "x;async getMachineId(){return a??b}y").
Proof.
  apply (proj2 (second_patch_noop_iff
                  (py "x;async getMachineId(){return a??b}y"))).
  vm_compute. reflexivity.
Defined.




(** ** Claims on [check_system_requirements] *)

(** C5, as stated, fails: with a missing descriptor the script is not
    examined at all, so its missing write permission goes unreported. *)
Lemma requirements_skip_script_after_failure :
  let run :=
    check_system_requirements host_without_descriptor demo_descriptor
      demo_main [] in
  path_isfile host_without_descriptor demo_descriptor = false /\
  path_isfile host_without_descriptor demo_main = true /\
  access_w_ok host_without_descriptor demo_main = false /\
  run = (Returned false,
         [CallIsFile demo_descriptor; LogError (FileMissing demo_descriptor)]).
Proof. vm_compute. repeat split; reflexivity. Qed.

(** C5, amended.  [check_system_requirements] examines the descriptor and
    then the script, each for being a regular file and then for write
    access, and stops at the first check that fails: it logs that one
    failure and returns [False] without examining anything further.  It
    returns [True] exactly when all four checks pass, so a problem with
    either file makes the result [False], but a problem of the script is
    neither examined nor reported once the descriptor has failed. *)
Theorem requirements_stop_at_first_failure (h : host)
    (pkg_path main_path : pystr) (tr : list event) :
  let run := check_system_requirements h pkg_path main_path tr in
  (path_isfile h pkg_path = false ->
   run = (Returned false,
          tr ++ [CallIsFile pkg_path; LogError (FileMissing pkg_path)])) /\
  (path_isfile h pkg_path = true -> access_w_ok h pkg_path = false ->
   run = (Returned false,
          tr ++ [CallIsFile pkg_path; CallAccessW pkg_path;
                 LogError (NoWritePermission pkg_path)])) /\
  (path_isfile h pkg_path = true -> access_w_ok h pkg_path = true ->
   path_isfile h main_path = false ->
   run = (Returned false,
          tr ++ [CallIsFile pkg_path; CallAccessW pkg_path;
                 CallIsFile main_path; LogError (FileMissing main_path)])) /\
  (path_isfile h pkg_path = true -> access_w_ok h pkg_path = true ->
   path_isfile h main_path = true -> access_w_ok h main_path = false ->
   run = (Returned false,
          tr ++ [CallIsFile pkg_path; CallAccessW pkg_path;
                 CallIsFile main_path; CallAccessW main_path;
                 LogError (NoWritePermission main_path)])) /\
  (fst run = Returned true <->
   path_isfile h pkg_path = true /\ access_w_ok h pkg_path = true /\
   path_isfile h main_path = true /\ access_w_ok h main_path = true).
Proof.
  unfold check_system_requirements, check_files, bind, os_path_isfile,
    os_access_w, logger_error, ret.
  cbn zeta.
  destruct (path_isfile h pkg_path), (access_w_ok h pkg_path),
    (path_isfile h main_path), (access_w_ok h main_path);
    cbn [negb fst]; rewrite <- ?app_assoc; cbn [app];
    repeat split; intros; try discriminate; try reflexivity;
    repeat match goal with H : _ /\ _ |- _ => destruct H end;
    discriminate.
Qed.

Lemma requirements_stop_at_first_failure_witness :
  check_system_requirements host_without_descriptor demo_descriptor
    demo_main []
  = (Returned false,
     [CallIsFile demo_descriptor; LogError (FileMissing demo_descriptor)]).
Proof.
  apply (proj1 (requirements_stop_at_first_failure host_without_descriptor
                  demo_descriptor demo_main [])).
  vm_compute. reflexivity.
Defined.

(** ** Claims on [get_cursor_paths] *)

(** The loop over candidate roots returns the paths of the first root whose
    descriptor exists, having asked only for the descriptors up to it. *)
Lemma probe_bases_found (h : host) (join : pystr -> list pystr -> pystr)
    (package main : pystr) (before : list pystr) (base : pystr)
    (after : list pystr) (tr : list event) :
  Forall (fun b => path_exists h (join b [package]) = false) before ->
  path_exists h (join base [package]) = true ->
  probe_bases h join package main (before ++ base :: after) tr
  = (Returned (join base [package], join base [main]),
     tr ++ map (fun b => CallExists (join b [package])) (before ++ [base])).
Proof.
  intros Hbefore Hbase. revert tr.
  induction Hbefore as [|b before Hb _ IH]; intros tr.
  - cbn [app probe_bases map]. unfold bind, os_path_exists, ret.
    now rewrite Hbase.
  - cbn [app probe_bases map]. unfold bind at 1. unfold os_path_exists at 1.
    rewrite Hb, IH, <- app_assoc. reflexivity.
Qed.

Lemma probe_bases_none (h : host) (join : pystr -> list pystr -> pystr)
    (package main : pystr) (bases : list pystr) (tr : list event) :
  Forall (fun b => path_exists h (join b [package]) = false) bases ->
  probe_bases h join package main bases tr
  = (Raised InstallationNotFound,
     tr ++ map (fun b => CallExists (join b [package])) bases).
Proof.
  intros Hnone. revert tr.
  induction Hnone as [|b bases Hb _ IH]; intros tr.
  - cbn [probe_bases map]. unfold raise. now rewrite app_nil_r.
  - cbn [probe_bases map]. unfold bind at 1. unfold os_path_exists at 1.
    rewrite Hb, IH, <- app_assoc. reflexivity.
Qed.

Lemma get_cursor_paths_linux (h : host) :
  platform_system h = py "Linux" ->
  get_cursor_paths h
  = probe_bases h PosixPath.join (py "package.json") (py "out/main.js")
      linux_bases.
Proof.
  intros Hsys. unfold get_cursor_paths, paths_map. rewrite Hsys.
  reflexivity.
Qed.

(** C8.  On Linux, where there are several candidate roots,
    [get_cursor_paths] goes through [linux_bases] in their order and asks
    only whether the descriptor under each root exists.  It returns the
    descriptor and script paths under the first root whose descriptor
    exists, without looking at the roots after it, and raises the
    installation-not-found error when no root has a descriptor. *)
Theorem linux_first_root_with_descriptor (h : host) (tr : list event) :
  platform_system h = py "Linux" ->
  (forall (before : list pystr) (base : pystr) (after : list pystr),
      linux_bases = before ++ base :: after ->
      Forall (fun b => path_exists h (descriptor_under b) = false) before ->
      path_exists h (descriptor_under base) = true ->
      get_cursor_paths h tr
      = (Returned (descriptor_under base, script_under base),
         tr ++ map (fun b => CallExists (descriptor_under b))
                 (before ++ [base]))) /\
  (Forall (fun b => path_exists h (descriptor_under b) = false) linux_bases ->
   get_cursor_paths h tr
   = (Raised InstallationNotFound,
      tr ++ map (fun b => CallExists (descriptor_under b)) linux_bases)).
Proof.
  intros Hsys. rewrite (get_cursor_paths_linux h Hsys). split.
  - intros before base after -> Hbefore Hbase.
    now apply probe_bases_found.
  - now apply probe_bases_none.
Qed.

Lemma linux_first_root_with_descriptor_witness :
  get_cursor_paths host_usr_share []
  = (Returned (py "/usr/share/cursor/resources/app/package.json",
               py "/usr/share/cursor/resources/app/out/main.js"),
     [CallExists (py "/opt/Cursor/resources/app/package.json");
      CallExists (py "/usr/share/cursor/resources/app/package.json")]).
Proof.
  apply (proj1 (linux_first_root_with_descriptor host_usr_share []
                  eq_refl)
           [py "/opt/Cursor/resources/app"]
           (py "/usr/share/cursor/resources/app") []).
  - reflexivity.
  - constructor; [vm_compute; reflexivity | constructor].
  - vm_compute. reflexivity.
Defined.

(** On the two systems with a single root the paths are joined from the
    root and returned; no question is asked. *)
Lemma get_cursor_paths_single_root (h : host) (tr : list event) :
  (platform_system h = py "Darwin" ->
   get_cursor_paths h tr
   = (Returned
        (py "/Applications/Cursor.app/Contents/Resources/app/package.json",
         py "/Applications/Cursor.app/Contents/Resources/app/out/main.js"),
      tr)) /\
  (platform_system h = py "Windows" ->
   let base :=
     NtPath.join (os_getenv h (py "LOCALAPPDATA") [])
       [py "Programs"; py "Cursor"; py "resources"; py "app"] in
   get_cursor_paths h tr
   = (Returned (NtPath.join base [py "package.json"],
                NtPath.join base [py "out/main.js"]), tr)).
Proof.
  split; intros Hsys; unfold get_cursor_paths, paths_map; rewrite Hsys;
    reflexivity.
Qed.

(** C9.  On Windows, where the root comes from [LOCALAPPDATA], an unset
    variable does not make [get_cursor_paths] raise: the root is the empty
    text, the paths are joined from it, and they are returned without any
    question about the file system being asked (the events are unchanged
    and the result does not depend on which paths exist). *)
Theorem windows_unset_variable (h : host) (tr : list event) :
  platform_system h = py "Windows" ->
  environ h (py "LOCALAPPDATA") = None ->
  os_getenv h (py "LOCALAPPDATA") [] = [] /\
  get_cursor_paths h tr = (Returned (windows_descriptor, windows_script), tr) /\
  windows_descriptor
  = NtPath.join
      (NtPath.join [] [py "Programs"; py "Cursor"; py "resources"; py "app"])
      [py "package.json"] /\
  windows_script
  = NtPath.join
      (NtPath.join [] [py "Programs"; py "Cursor"; py "resources"; py "app"])
      [py "out/main.js"].
Proof.
  intros Hsys Henv.
  assert (Hroot : os_getenv h (py "LOCALAPPDATA") [] = [])
    by (unfold os_getenv; now rewrite Henv).
  split; [exact Hroot|]. split; [|split; vm_compute; reflexivity].
  unfold get_cursor_paths, paths_map. rewrite Hsys, Hroot.
  vm_compute. reflexivity.
Qed.

Lemma windows_unset_variable_witness :
  get_cursor_paths host_windows_bare []
  = (Returned (windows_descriptor, windows_script), []).
Proof.
  exact (proj1 (proj2 (windows_unset_variable host_windows_bare []
                         eq_refl eq_refl))).
Defined.

(** ** Claims on [version_check] *)

Lemma tuple_lt_triple (a b c a' b' c' : Z) :
  tuple_lt [a; b; c] [a'; b'; c'] = true <-> triple_lt (a, b, c) (a', b', c').
Proof.
  cbn [tuple_lt triple_lt].
  destruct (Z.eqb_spec a a'), (Z.eqb_spec b b'), (Z.eqb_spec c c');
    rewrite ?Z.ltb_lt; try (split; [discriminate|]); lia.
Qed.

Lemma tuple_gt_triple (a b c a' b' c' : Z) :
  tuple_gt [a; b; c] [a'; b'; c'] = true <-> triple_lt (a', b', c') (a, b, c).
Proof.
  cbn [tuple_gt triple_lt].
  destruct (Z.eqb_spec a a'), (Z.eqb_spec b b'), (Z.eqb_spec c c');
    rewrite ?Z.gtb_gt; try (split; [discriminate|]); lia.
Qed.

Lemma split_on_inhabited (sep : N) (s : pystr) : split_on sep s <> [].
Proof.
  destruct s as [|c s]; cbn [split_on]; [discriminate|].
  destruct (N.eqb c sep); [discriminate|].
  destruct (split_on sep s); discriminate.
Qed.

(** A piece without separator, followed by a separator, is the first
    piece. *)
Lemma split_on_piece (sep : N) (a t : pystr) :
  forallb (fun c => negb (N.eqb c sep)) a = true ->
  split_on sep (a ++ sep :: t) = a :: split_on sep t.
Proof.
  induction a as [|c a IH]; intros Ha.
  - cbn [app split_on]. now rewrite N.eqb_refl.
  - cbn [forallb] in Ha. apply andb_prop in Ha as [Hc Ha].
    cbn [app split_on]. apply negb_true_iff in Hc. rewrite Hc.
    now rewrite (IH Ha).
Qed.

Lemma split_on_last (sep : N) (a : pystr) :
  forallb (fun c => negb (N.eqb c sep)) a = true ->
  split_on sep a = [a].
Proof.
  induction a as [|c a IH]; intros Ha; [reflexivity|].
  cbn [forallb] in Ha. apply andb_prop in Ha as [Hc Ha].
  cbn [split_on]. apply negb_true_iff in Hc. rewrite Hc.
  now rewrite (IH Ha).
Qed.

Lemma many_run_end (k : cclass) (cont : nat -> pystr -> option match_obj)
    (a : pystr) (pos : nat) (m : match_obj) :
  a <> [] ->
  forallb (cclass_matches k) a = true ->
  cont (pos + length a)%nat [] = Some m ->
  many k cont pos a = Some m.
Proof.
  intros Hne Ha Hk. rewrite <- (app_nil_r a).
  now apply many_run.
Qed.

Section VersionFacts.

Variable cls : N -> uclass.
Variable lim : N.

Lemma map_raising_int_call {S : Type} (pieces : list pystr) (st : S) :
  map_raising (int_call cls lim) pieces st = (ints (int cls lim) pieces, st).
Proof.
  induction pieces as [|p ps IH]; [reflexivity|].
  cbn [map_raising ints]. unfold bind at 1. unfold int_call at 1.
  destruct (int cls lim p) as [x|e]; [|reflexivity].
  unfold bind. rewrite IH. now destruct (ints (int cls lim) ps).
Qed.

Lemma parse_version_pure {S : Type} (ver : pystr) (st : S) :
  parse_version cls lim ver st = (ints (int cls lim) (split_on DOT ver), st).
Proof. apply map_raising_int_call. Qed.

Lemma dot_not_decimal : is_decimal cls DOT = false.
Proof. reflexivity. Qed.

Lemma decimal_not_dot (ds : pystr) :
  forallb (is_decimal cls) ds = true ->
  forallb (fun c => negb (N.eqb c DOT)) ds = true.
Proof.
  induction ds as [|c ds IH]; [reflexivity|].
  cbn [forallb]. intros H. apply andb_prop in H as [Hc Hds].
  rewrite (IH Hds), andb_true_r. apply negb_true_iff.
  destruct (N.eqb_spec c DOT) as [->|]; [|reflexivity].
  rewrite dot_not_decimal in Hc. discriminate.
Qed.

Lemma sym_of_decimal (c : N) :
  is_decimal cls c = true ->
  exists d, sym_of cls c = SDigit d /\ decimal_of cls c = digit_value d.
Proof.
  unfold is_decimal, sym_of, decimal_of.
  destruct (char_class cls c) as [d| |]; try discriminate.
  intros _. now exists d.
Qed.

Lemma int_digits_app (ds : pystr) (acc : Z) (n : N) (rest : list sym) :
  forallb (is_decimal cls) ds = true ->
  int_digits acc n (map (sym_of cls) ds ++ rest)
  = int_digits
      (fold_left (fun acc c => (10 * acc + decimal_of cls c)%Z) ds acc)
      (n + N.of_nat (length ds)) rest.
Proof.
  revert acc n. induction ds as [|c ds IH]; intros acc n H.
  - cbn [map app fold_left length]. now rewrite N.add_0_r.
  - cbn [forallb] in H. apply andb_prop in H as [Hc Hds].
    destruct (sym_of_decimal c Hc) as (d & Hs & Hv).
    cbn [map app int_digits fold_left]. rewrite Hs, Hv, (IH _ _ Hds).
    f_equal. cbn [length]. lia.
Qed.

(** In a run of decimal digits every character counts. *)
Lemma digit_count_run (ds : pystr) :
  forallb (is_decimal cls) ds = true ->
  digit_count cls ds = N.of_nat (length ds).
Proof.
  unfold digit_count. induction ds as [|c ds IH]; [reflexivity|].
  cbn [forallb List.filter]. intros H. apply andb_prop in H as [-> Hds].
  cbn [length]. apply (IH) in Hds. lia.
Qed.

Lemma digit_count_newline (ds : pystr) :
  digit_count cls (ds ++ [LF]) = digit_count cls ds.
Proof.
  unfold digit_count. rewrite List.filter_app. cbn [List.filter].
  change (is_decimal cls LF) with false. now rewrite app_nil_r.
Qed.

(** What [int] sees of a run of digits, whatever follows it. *)
Lemma int_run_followed (ds : pystr) (rest : pystr) :
  digit_run cls ds ->
  int cls lim (ds ++ rest)
  = match int_digits (run_value cls ds) (digit_count cls ds)
            (map (sym_of cls) rest) with
    | Some (v, digits, rest') =>
        if exceeds_limit lim digits then Raised ValueError
        else match skip_spaces rest' with
             | [] => Returned v
             | _ :: _ => Raised ValueError
             end
    | None => Raised ValueError
    end.
Proof.
  intros [Hne Hds]. rewrite (digit_count_run ds Hds).
  destruct ds as [|c ds]; [contradiction|].
  cbn [forallb] in Hds. apply andb_prop in Hds as [Hc Hds].
  destruct (sym_of_decimal c Hc) as (d & Hs & Hv).
  unfold int, run_value. cbn [app map fold_left]. rewrite Hs.
  cbn [skip_spaces int_signed]. rewrite map_app.
  rewrite (int_digits_app ds (digit_value d) 1 _ Hds).
  replace (10 * 0 + decimal_of cls c)%Z with (digit_value d) by lia.
  replace (1 + N.of_nat (length ds)) with (N.of_nat (length (c :: ds)))
    by (cbn [length]; lia).
  destruct (int_digits _ _ _) as [[[v digits] rest']|]; [|reflexivity].
  destruct (exceeds_limit lim digits); [reflexivity|].
  destruct (skip_spaces rest'); [|reflexivity].
  f_equal. now destruct v.
Qed.

(** [int] reads a run of decimal digits as the number it writes, unless
    the run is longer than it converts. *)
Lemma int_digit_run (ds : pystr) :
  digit_run cls ds ->
  int cls lim ds
  = if exceeds_limit lim (digit_count cls ds) then Raised ValueError
    else Returned (run_value cls ds).
Proof.
  intros H. rewrite <- (app_nil_r ds) at 1.
  rewrite (int_run_followed ds [] H). cbn [map int_digits skip_spaces].
  reflexivity.
Qed.

(** White space after the digits is skipped: a run followed by a newline
    is read like the run. *)
Lemma int_digit_run_newline (ds : pystr) :
  digit_run cls ds ->
  int cls lim (ds ++ [LF])
  = if exceeds_limit lim (digit_count cls ds) then Raised ValueError
    else Returned (run_value cls ds).
Proof.
  intros H. rewrite (int_run_followed ds [LF] H).
  cbn [map int_digits skip_spaces]. reflexivity.
Qed.

(** The pieces of a well-formed version, and of one followed by a
    newline. *)
Lemma split_on_runs (a b c : pystr) :
  digit_run cls a -> digit_run cls b ->
  forallb (fun x => negb (N.eqb x DOT)) c = true ->
  split_on DOT (a ++ DOT :: b ++ DOT :: c) = [a; b; c].
Proof.
  intros Ha Hb Hc.
  rewrite (split_on_piece DOT a) by apply decimal_not_dot, Ha.
  rewrite (split_on_piece DOT b) by apply decimal_not_dot, Hb.
  now rewrite (split_on_last DOT c).
Qed.

Lemma convertible_runs (a b c : pystr) :
  digit_run cls a -> digit_run cls b -> digit_run cls c ->
  convertible cls lim (a ++ DOT :: b ++ DOT :: c)
  = negb (exceeds_limit lim (digit_count cls a))
    && (negb (exceeds_limit lim (digit_count cls b))
        && negb (exceeds_limit lim (digit_count cls c))).
Proof.
  intros Ha Hb Hc. unfold convertible.
  rewrite (split_on_runs a b c Ha Hb) by apply decimal_not_dot, Hc.
  cbn [forallb]. now rewrite andb_true_r.
Qed.

Lemma ints_runs (a b c c' : pystr) :
  digit_run cls a -> digit_run cls b -> digit_run cls c ->
  c' = c \/ c' = c ++ [LF] ->
  ints (int cls lim) [a; b; c']
  = if convertible cls lim (a ++ DOT :: b ++ DOT :: c)
    then Returned [run_value cls a; run_value cls b; run_value cls c]
    else Raised ValueError.
Proof.
  intros Ha Hb Hc Hc'. rewrite (convertible_runs a b c Ha Hb Hc).
  cbn [ints]. rewrite (int_digit_run a Ha), (int_digit_run b Hb).
  assert (int cls lim c'
          = if exceeds_limit lim (digit_count cls c) then Raised ValueError
            else Returned (run_value cls c)) as ->
    by (destruct Hc' as [-> | ->];
        [apply int_digit_run | apply int_digit_run_newline]; exact Hc).
  destruct (exceeds_limit lim (digit_count cls a)); [reflexivity|].
  destruct (exceeds_limit lim (digit_count cls b)); [reflexivity|].
  destruct (exceeds_limit lim (digit_count cls c)); reflexivity.
Qed.

(** How the pieces of a well-formed version are read. *)
Lemma ints_denotes_cases (s : pystr) (x y z : Z) :
  denotes cls s (x, y, z) ->
  ints (int cls lim) (split_on DOT s)
  = if convertible cls lim s then Returned [x; y; z] else Raised ValueError.
Proof.
  intros (a & b & c & Ha & Hb & Hc & -> & [= -> -> ->]).
  rewrite (split_on_runs a b c Ha Hb) by apply decimal_not_dot, Hc.
  apply ints_runs; auto.
Qed.

Lemma ints_denotes (s : pystr) (x y z : Z) :
  denotes cls s (x, y, z) ->
  convertible cls lim s = true ->
  ints (int cls lim) (split_on DOT s) = Returned [x; y; z].
Proof.
  intros H Hc. now rewrite (ints_denotes_cases s x y z H), Hc.
Qed.

(** The pattern accepts every [major.minor.patch]. *)
Lemma re_match_denotes (s : pystr) (v : Z * Z * Z) :
  denotes cls s v -> exists m, re_match (version_pattern cls) s = Some m.
Proof.
  intros (a & b & c & [Ha1 Ha2] & [Hb1 Hb2] & [Hc1 Hc2] & -> & _).
  unfold re_match, version_pattern. cbn [match_here].
  eexists.
  apply many_run; [assumption | assumption | apply dot_not_decimal |].
  cbn [match_here cclass_matches]. rewrite N.eqb_refl.
  apply many_run; [assumption | assumption | apply dot_not_decimal |].
  cbn [match_here cclass_matches]. rewrite N.eqb_refl.
  apply many_run_end; [assumption | assumption |].
  reflexivity.
Qed.

Lemma denotes_truthy (s : pystr) (v : Z * Z * Z) :
  denotes cls s v -> truthy s = true.
Proof.
  intros (a & b & c & [Ha _] & _ & _ & -> & _).
  destruct a; [contradiction | reflexivity].
Qed.

Lemma is_below_spec (lo : option (Z * Z * Z)) (v : Z * Z * Z) :
  is_below lo v = true <-> below lo v.
Proof.
  unfold is_below, below. destruct lo as [[[a' b'] c']|].
  - destruct v as [[a b] c]. cbn [triple_list]. rewrite tuple_lt_triple.
    split; [intros H; eexists; split; [reflexivity | exact H]|].
    now intros (m & [= <-] & H).
  - split; [discriminate|]. now intros (m & [=] & _).
Qed.

Lemma is_above_spec (v : Z * Z * Z) (hi : option (Z * Z * Z)) :
  is_above v hi = true <-> above v hi.
Proof.
  unfold is_above, above. destruct hi as [[[a' b'] c']|].
  - destruct v as [[a b] c]. cbn [triple_list]. rewrite tuple_gt_triple.
    split; [intros H; eexists; split; [reflexivity | exact H]|].
    now intros (m & [= <-] & H).
  - split; [discriminate|]. now intros (m & [=] & _).
Qed.

Lemma triple_le_not_lt (x y : Z * Z * Z) : triple_le x y -> ~ triple_lt y x.
Proof.
  destruct x as [[a b] c], y as [[a' b'] c'].
  intros [H | [= -> -> ->]]; cbn [triple_lt] in *; lia.
Qed.

Lemma within_not_below (lo hi : option (Z * Z * Z)) (v : Z * Z * Z) :
  within lo v hi -> is_below lo v = false.
Proof.
  intros [Hlo _]. apply not_true_iff_false. rewrite is_below_spec.
  intros (m & Hm & Hlt). exact (triple_le_not_lt m v (Hlo m Hm) Hlt).
Qed.

Lemma within_not_above (lo hi : option (Z * Z * Z)) (v : Z * Z * Z) :
  within lo v hi -> is_above v hi = false.
Proof.
  intros [_ Hhi]. apply not_true_iff_false. rewrite is_above_spec.
  intros (m & Hm & Hlt). exact (triple_le_not_lt v m (Hhi m Hm) Hlt).
Qed.

Lemma within_boundary (lo hi : option (Z * Z * Z)) (v : Z * Z * Z) :
  lo = None \/ lo = Some v -> hi = None \/ hi = Some v -> within lo v hi.
Proof.
  intros Hlo Hhi. split; intros m Hm.
  - destruct Hlo as [-> | ->]; [discriminate|]. injection Hm as <-. now right.
  - destruct Hhi as [-> | ->]; [discriminate|]. injection Hm as <-. now right.
Qed.

Lemma denotes_accepted (s : pystr) (v : Z * Z * Z) :
  denotes cls s v -> convertible cls lim s = true -> accepted_as cls lim s v.
Proof.
  intros H Hc. split; [exact (re_match_denotes s v H)|].
  destruct v as [[x y] z]. exact (ints_denotes s x y z H Hc).
Qed.

(** A newline after a well-formed version changes nothing for the pattern
    nor for [int]. *)
Lemma newline_shape (a b c : pystr) :
  (a ++ DOT :: b ++ DOT :: c) ++ [LF] = a ++ DOT :: b ++ DOT :: c ++ [LF].
Proof. rewrite <- !app_assoc. cbn [app]. now rewrite <- !app_assoc. Qed.

Lemma re_match_newline (s : pystr) (v : Z * Z * Z) :
  denotes cls s v ->
  exists m, re_match (version_pattern cls) (s ++ [LF]) = Some m.
Proof.
  intros (a & b & c & [Ha1 Ha2] & [Hb1 Hb2] & [Hc1 Hc2] & -> & _).
  rewrite newline_shape.
  unfold re_match, version_pattern. cbn [match_here]. eexists.
  apply many_run; [assumption | assumption | apply dot_not_decimal |].
  cbn [match_here cclass_matches]. rewrite N.eqb_refl.
  apply many_run; [assumption | assumption | apply dot_not_decimal |].
  cbn [match_here cclass_matches]. rewrite N.eqb_refl.
  apply many_run; [assumption | assumption | reflexivity |].
  reflexivity.
Qed.

Lemma ints_newline_cases (s : pystr) (x y z : Z) :
  denotes cls s (x, y, z) ->
  ints (int cls lim) (split_on DOT (s ++ [LF]))
  = if convertible cls lim s then Returned [x; y; z] else Raised ValueError.
Proof.
  intros (a & b & c & Ha & Hb & Hc & -> & [= -> -> ->]).
  rewrite newline_shape.
  rewrite (split_on_runs a b (c ++ [LF]) Ha Hb)
    by (rewrite forallb_app, (decimal_not_dot c (proj2 Hc)); reflexivity).
  apply ints_runs; auto.
Qed.

Lemma newline_accepted (s : pystr) (v : Z * Z * Z) :
  denotes cls s v -> convertible cls lim s = true ->
  accepted_as cls lim (s ++ [LF]) v.
Proof.
  intros H Hc. split; [exact (re_match_newline s v H)|].
  destruct v as [[x y] z]. now rewrite (ints_newline_cases s x y z H), Hc.
Qed.

(** The bounds [bound_denotes] speaks of are read as their triples. *)
Lemma bound_denotes_reads (s : pystr) (b : option (Z * Z * Z)) :
  bound_denotes cls lim s b ->
  bound_reads cls lim s (option_map triple_list b).
Proof.
  intros [[-> ->] | (w & Hw & Hc & ->)]; [now left|]. right. split.
  - pose proof (denotes_truthy s w Hw) as Ht. now destruct s.
  - exists (triple_list w). split; [|reflexivity].
    destruct w as [[x y] z]. exact (ints_denotes s x y z Hw Hc).
Qed.

(** What [version_check] computes on a version it accepts, for bounds of
    any number of pieces. *)
Lemma version_check_eval_lists (version min_version max_version : pystr)
    (v : Z * Z * Z) (lo hi : option (list Z)) (tr : list event) :
  accepted_as cls lim version v ->
  bound_reads cls lim min_version lo ->
  bound_reads cls lim max_version hi ->
  version_check cls lim version min_version max_version tr
  = if is_below_list lo v
    then (Returned false,
          tr ++ [LogError (VersionBelowMinimum version min_version)])
    else if is_above_list v hi
    then (Returned false,
          tr ++ [LogError (VersionAboveMaximum version max_version)])
    else (Returned true, tr).
Proof.
  intros [[m Hm] Hv] Hlo Hhi.
  unfold version_check, try_except, version_check_body. rewrite Hm.
  unfold bind at 1. rewrite parse_version_pure, Hv.
  assert (Hbelow :
    (if truthy min_version
     then let* lo0 := parse_version cls lim min_version
          in ret (tuple_lt (triple_list v) lo0)
     else ret false) tr
    = (Returned (is_below_list lo v), tr)).
  { destruct Hlo as [[-> ->] | (Hne & l & Hl & ->)]; [reflexivity|].
    destruct min_version; [contradiction|]. cbn [truthy]. unfold bind.
    now rewrite parse_version_pure, Hl. }
  assert (Habove :
    (if truthy max_version
     then let* hi0 := parse_version cls lim max_version
          in ret (tuple_gt (triple_list v) hi0)
     else ret false) tr
    = (Returned (is_above_list v hi), tr)).
  { destruct Hhi as [[-> ->] | (Hne & l & Hl & ->)]; [reflexivity|].
    destruct max_version; [contradiction|]. cbn [truthy]. unfold bind.
    now rewrite parse_version_pure, Hl. }
  unfold bind at 1. rewrite Hbelow.
  destruct (is_below_list lo v); [reflexivity|].
  unfold bind at 1. rewrite Habove.
  destruct (is_above_list v hi); reflexivity.
Qed.

(** The same on bounds that are absent or well-formed. *)
Lemma version_check_eval (version min_version max_version : pystr)
    (v : Z * Z * Z) (lo hi : option (Z * Z * Z)) (tr : list event) :
  accepted_as cls lim version v ->
  bound_denotes cls lim min_version lo ->
  bound_denotes cls lim max_version hi ->
  version_check cls lim version min_version max_version tr
  = if is_below lo v
    then (Returned false,
          tr ++ [LogError (VersionBelowMinimum version min_version)])
    else if is_above v hi
    then (Returned false,
          tr ++ [LogError (VersionAboveMaximum version max_version)])
    else (Returned true, tr).
Proof.
  intros Hv Hlo Hhi.
  rewrite (version_check_eval_lists version min_version max_version v
             _ _ tr Hv (bound_denotes_reads _ _ Hlo)
             (bound_denotes_reads _ _ Hhi)).
  now destruct lo, hi.
Qed.

(** A well-formed version one of whose numbers has more digits than [int]
    converts, followed or not by a newline: the pattern lets it through,
    [int] raises, and the handler turns that into [False], whatever the
    bounds. *)
Lemma version_check_unconvertible
    (version t min_version max_version : pystr) (v : Z * Z * Z)
    (tr : list event) :
  denotes cls t v ->
  version = t \/ version = t ++ [LF] ->
  convertible cls lim t = false ->
  version_check cls lim version min_version max_version tr
  = (Returned false, tr ++ [LogError (VersionCheckFailed ValueError)]).
Proof.
  intros Hv Hs Hc.
  assert (Hm : exists m, re_match (version_pattern cls) version = Some m)
    by (destruct Hs as [-> | ->];
        [exact (re_match_denotes t v Hv) | exact (re_match_newline t v Hv)]).
  destruct Hm as [m Hm]. destruct v as [[x y] z].
  assert (Hi : ints (int cls lim) (split_on DOT version) = Raised ValueError)
    by (destruct Hs as [-> | ->];
        [rewrite (ints_denotes_cases t x y z Hv)
        |rewrite (ints_newline_cases t x y z Hv)]; now rewrite Hc).
  unfold version_check, try_except, version_check_body. rewrite Hm.
  unfold bind at 1. now rewrite parse_version_pure, Hi.
Qed.

Lemma version_check_beyond_limit (version min_version max_version : pystr)
    (v : Z * Z * Z) (tr : list event) :
  denotes cls version v ->
  convertible cls lim version = false ->
  version_check cls lim version min_version max_version tr
  = (Returned false, tr ++ [LogError (VersionCheckFailed ValueError)]).
Proof.
  intros Hv Hc.
  exact (version_check_unconvertible version version _ _ v tr Hv
           (or_introl eq_refl) Hc).
Qed.

(** C6, amended.  Inclusive version range.  For a well-formed [version]
    and bounds that are absent (the empty text) or well-formed with
    numbers [int] converts, compared lexicographically on (major, minor,
    patch).  When the numbers of [version] are within the interpreter's
    limit on digits: [version_check] returns [True] when
    [min_version <= version <= max_version], each bound applying only when
    present; it returns [False], logging that the version is below the
    minimum, when [version < min_version], and returns [False] when
    [version > max_version] (logging that the version is above the maximum
    unless it is also below the minimum); a version equal to a bound
    passes that bound.  When a number of [version] is beyond the limit the
    result is [False] wherever the version lies. *)
Theorem version_check_inclusive_range
    (version min_version max_version : pystr)
    (v : Z * Z * Z) (lo hi : option (Z * Z * Z)) (tr : list event) :
  denotes cls version v ->
  bound_denotes cls lim min_version lo ->
  bound_denotes cls lim max_version hi ->
  let run := version_check cls lim version min_version max_version tr in
  (convertible cls lim version = true ->
   (within lo v hi -> run = (Returned true, tr)) /\
   (below lo v ->
    run = (Returned false,
           tr ++ [LogError (VersionBelowMinimum version min_version)])) /\
   (above v hi -> fst run = Returned false) /\
   (above v hi -> ~ below lo v ->
    run = (Returned false,
           tr ++ [LogError (VersionAboveMaximum version max_version)])) /\
   ((lo = None \/ lo = Some v) -> (hi = None \/ hi = Some v) ->
    run = (Returned true, tr))) /\
  (convertible cls lim version = false ->
   run = (Returned false, tr ++ [LogError (VersionCheckFailed ValueError)])).
Proof.
  intros Hv Hlo Hhi run. subst run.
  split; [|now apply version_check_beyond_limit with (v := v)].
  intros Hconv.
  rewrite (version_check_eval _ _ _ v lo hi tr (denotes_accepted _ _ Hv Hconv)
             Hlo Hhi).
  assert (Hin : within lo v hi ->
                (if is_below lo v
                 then (Returned false,
                       tr ++ [LogError
                                (VersionBelowMinimum version min_version)])
                 else if is_above v hi
                 then (Returned false,
                       tr ++ [LogError
                                (VersionAboveMaximum version max_version)])
                 else (Returned true, tr)) = (Returned true, tr)).
  { intros Hw.
    now rewrite (within_not_below lo hi v Hw), (within_not_above lo hi v Hw). }
  split; [exact Hin|]. split; [|split; [|split]].
  - intros Hb. apply is_below_spec in Hb. now rewrite Hb.
  - intros Ha. apply is_above_spec in Ha. rewrite Ha.
    now destruct (is_below lo v).
  - intros Ha Hnb. apply is_above_spec in Ha. rewrite Ha.
    destruct (is_below lo v) eqn:Hb; [|reflexivity].
    apply is_below_spec in Hb. contradiction.
  - intros Hl Hh. apply Hin. now apply within_boundary.
Qed.

(** A well-formed version is made of decimal digits and dots, and
    [split] cuts it into three pieces. *)
Lemma denotes_alphabet (s : pystr) (v : Z * Z * Z) :
  denotes cls s v ->
  forallb (fun x => is_decimal cls x || N.eqb x DOT) s = true.
Proof.
  assert (Hrun : forall ds, digit_run cls ds ->
            forallb (fun x => is_decimal cls x || N.eqb x DOT) ds = true).
  { intros ds [_ Hds]. revert Hds. induction ds as [|x ds IH];
      [reflexivity|].
    cbn [forallb]. intros H. apply andb_prop in H as [-> Hds].
    now rewrite (IH Hds). }
  intros (a & b & c & Ha & Hb & Hc & -> & _).
  rewrite forallb_app. cbn [forallb]. rewrite forallb_app. cbn [forallb].
  rewrite (Hrun a Ha), (Hrun b Hb), (Hrun c Hc), N.eqb_refl.
  now rewrite !orb_true_r.
Qed.

Lemma denotes_three_pieces (s : pystr) (v : Z * Z * Z) :
  denotes cls s v -> length (split_on DOT s) = 3%nat.
Proof.
  intros (a & b & c & Ha & Hb & Hc & -> & _).
  now rewrite (split_on_runs a b c Ha Hb) by apply decimal_not_dot, Hc.
Qed.

(** What the pattern accepts: [major.minor.patch], possibly followed by
    one newline. *)
Lemma version_pattern_inv (s : pystr) (m : match_obj) :
  re_match (version_pattern cls) s = Some m ->
  exists t v, denotes cls t v /\ (s = t \/ s = t ++ [LF]).
Proof.
  unfold re_match, version_pattern. cbn [match_here]. intros H.
  apply many_inv in H as (a & s1 & -> & Ha1 & Ha2 & H).
  cbn [match_here cclass_matches] in H.
  destruct s1 as [|x s1]; [discriminate|].
  destruct (N.eqb_spec x DOT) as [->|]; [|discriminate].
  apply many_inv in H as (b & s2 & -> & Hb1 & Hb2 & H).
  cbn [match_here cclass_matches] in H.
  destruct s2 as [|y s2]; [discriminate|].
  destruct (N.eqb_spec y DOT) as [->|]; [|discriminate].
  apply many_inv in H as (c & s3 & -> & Hc1 & Hc2 & H).
  cbn [match_here] in H.
  exists (a ++ DOT :: b ++ DOT :: c),
    (run_value cls a, run_value cls b, run_value cls c).
  split; [exists a, b, c; repeat split; assumption|].
  destruct s3 as [|z s3]; [left; now rewrite app_nil_r|].
  destruct s3 as [|z' s3]; [|discriminate].
  cbn [at_eol] in H. destruct (N.eqb_spec z LF) as [->|]; [|discriminate].
  right. rewrite <- !app_assoc. cbn [app]. now rewrite <- !app_assoc.
Qed.

(** A text the pattern rejects is reported as badly formed. *)
Lemma version_check_bad_format (version min_version max_version : pystr)
    (tr : list event) :
  re_match (version_pattern cls) version = None ->
  version_check cls lim version min_version max_version tr
  = (Returned false, tr ++ [LogError (InvalidVersionFormat version)]).
Proof.
  intros H. unfold version_check, try_except, version_check_body.
  now rewrite H.
Qed.

(** C7.  Strict version format.  A well-formed version followed by one
    newline, such as [1.2.3] and a line feed, is not of the form
    digits.digits.digits, yet [version_check] treats it like the version
    itself: the pattern matches it ([$] also matches before a final
    newline), [int] skips the newline, and with the version inside the
    bounds [True] is returned and nothing is logged.  (When one of its
    numbers has more digits than [int] converts the result is [False], as
    it is for the version itself, and the record is not the one of an
    invalid format either.) *)
Theorem trailing_newline_accepted
    (version min_version max_version : pystr)
    (v : Z * Z * Z) (lo hi : option (Z * Z * Z)) (tr : list event) :
  denotes cls version v ->
  bound_denotes cls lim min_version lo ->
  bound_denotes cls lim max_version hi ->
  within lo v hi ->
  (forall w, ~ denotes cls (version ++ [LF]) w) /\
  (exists m, re_match (version_pattern cls) (version ++ [LF]) = Some m) /\
  version_check cls lim (version ++ [LF]) min_version max_version tr
  = if convertible cls lim version then (Returned true, tr)
    else (Returned false, tr ++ [LogError (VersionCheckFailed ValueError)]).
Proof.
  intros Hv Hlo Hhi Hin.
  split; [|split; [exact (re_match_newline version v Hv)|]].
  - intros w H. apply denotes_alphabet in H.
    rewrite forallb_app in H. apply andb_prop in H as [_ H].
    discriminate.
  - destruct (convertible cls lim version) eqn:Hconv.
    + rewrite (version_check_eval _ _ _ v lo hi tr
                 (newline_accepted version v Hv Hconv) Hlo Hhi).
      now rewrite (within_not_below lo hi v Hin),
        (within_not_above lo hi v Hin).
    + exact (version_check_unconvertible _ version _ _ v tr Hv
               (or_intror eq_refl) Hconv).
Qed.

Lemma ints_unparsable (pieces : list pystr) :
  (exists piece, In piece pieces /\ int cls lim piece = Raised ValueError) ->
  exists e, ints (int cls lim) pieces = Raised e.
Proof.
  induction pieces as [|p ps IH]; intros (piece & Hin & Hp);
    [destruct Hin|].
  cbn [ints]. destruct (int cls lim p) as [x|e] eqn:Hx; [|now exists e].
  destruct Hin as [-> | Hin]; [congruence|].
  destruct IH as [e He]; [now exists piece|].
  rewrite He. now exists e.
Qed.

Ltac run_version :=
  unfold version_check, try_except, version_check_body, bind, logger_error,
    ret;
  repeat (case_match;
          repeat match goal with
            | H : parse_version _ _ _ _ = _ |- _ =>
                rewrite parse_version_pure in H
            end;
          simplify_eq);
  cbn [fst]; try congruence.

(** C10, amended.  [version_check] always returns a boolean: whatever the
    three texts, no exception leaves it.  Each bound is read on its own:
    the empty text is an absent bound and is not parsed, and a non-empty
    bound that [int] reads piece by piece is compared with the version as
    a tuple of integers, whatever its number of pieces; so on a
    well-formed version within the limit on digits the result is [False]
    exactly when the version's triple is smaller than the tuple of
    [min_version] or greater than the tuple of [max_version].  A non-empty
    bound one of whose dot-separated pieces [int] rejects makes the result
    [False]. *)
Theorem version_check_total (version min_version max_version : pystr)
    (tr : list event) :
  (exists b tr',
      version_check cls lim version min_version max_version tr
      = (Returned b, tr')) /\
  (forall v lo hi,
      denotes cls version v -> convertible cls lim version = true ->
      bound_reads cls lim min_version lo ->
      bound_reads cls lim max_version hi ->
      version_check cls lim version min_version max_version tr
      = if is_below_list lo v
        then (Returned false,
              tr ++ [LogError (VersionBelowMinimum version min_version)])
        else if is_above_list v hi
        then (Returned false,
              tr ++ [LogError (VersionAboveMaximum version max_version)])
        else (Returned true, tr)) /\
  (min_version <> [] -> unparsable cls lim min_version ->
   fst (version_check cls lim version min_version max_version tr)
   = Returned false) /\
  (max_version <> [] -> unparsable cls lim max_version ->
   fst (version_check cls lim version min_version max_version tr)
   = Returned false).
Proof.
  split; [|split; [|split]].
  - run_version; eauto.
  - intros v lo hi Hv Hconv Hlo Hhi.
    exact (version_check_eval_lists version min_version max_version v lo hi
             tr (denotes_accepted _ _ Hv Hconv) Hlo Hhi).
  - intros Hne Hbad. apply ints_unparsable in Hbad as [e He].
    destruct min_version as [|c l]; [contradiction|].
    run_version.
  - intros Hne Hbad. apply ints_unparsable in Hbad as [e He].
    destruct max_version as [|c l]; [contradiction|].
    run_version.
Qed.

End VersionFacts.

Lemma denotes_0_45_0 : denotes ascii_only (py "0.45.0") (0, 45, 0)%Z.
Proof.
  exists [48], [52; 53], [48].
  repeat split; try discriminate; reflexivity.
Qed.

Lemma version_check_inclusive_range_witness :
  version_check ascii_only DEFAULT_MAX_STR_DIGITS (py "0.45.0") (py "0.45.0")
    [] []
  = (Returned true, []).
Proof.
  refine (proj1 (proj1 (version_check_inclusive_range ascii_only
                          DEFAULT_MAX_STR_DIGITS
                          (py "0.45.0") (py "0.45.0") [] (0, 45, 0)%Z
                          (Some (0, 45, 0)%Z) None [] denotes_0_45_0 _ _)
                   eq_refl) _).
  - right. exists (0, 45, 0)%Z.
    split; [exact denotes_0_45_0 | split; reflexivity].
  - left. split; reflexivity.
  - split; intros m Hm; [|discriminate].
    injection Hm as <-. right. reflexivity.
Defined.

Lemma denotes_long_version :
  denotes ascii_only long_version
    (1%Z, 2%Z, run_value ascii_only (repeat 57 4301)).
Proof.
  exists [49], [50], (repeat 57 4301).
  repeat split; try discriminate; vm_compute; reflexivity.
Qed.

(** C6, as stated, fails: [1.2.] followed by 4301 nines is well-formed and,
    there being no bound, within the range, yet under the limit of 4300
    digits [int] refuses its last number and the check returns [False]. *)
Lemma version_check_refuses_long_number :
  (exists v, denotes ascii_only long_version v /\ within None v None) /\
  version_check ascii_only DEFAULT_MAX_STR_DIGITS long_version [] [] []
  = (Returned false, [LogError (VersionCheckFailed ValueError)]).
Proof.
  split.
  - eexists. split; [exact denotes_long_version|].
    split; intros m Hm; discriminate.
  - apply (version_check_beyond_limit ascii_only DEFAULT_MAX_STR_DIGITS
             long_version [] [] _ [] denotes_long_version).
    vm_compute. reflexivity.
Qed.

Lemma denotes_1_2_3 : denotes ascii_only (py "1.2.3") (1, 2, 3)%Z.
Proof.
  exists [49], [50], [51].
  repeat split; try discriminate; reflexivity.
Qed.

Lemma trailing_newline_accepted_witness :
  version_check ascii_only DEFAULT_MAX_STR_DIGITS (py "1.2.3" ++ [LF]) [] []
    []
  = (Returned true, []).
Proof.
  refine (proj2 (proj2 (trailing_newline_accepted ascii_only
                          DEFAULT_MAX_STR_DIGITS
                          (py "1.2.3") [] [] (1, 2, 3)%Z None None []
                          denotes_1_2_3 _ _ _))).
  - left. split; reflexivity.
  - left. split; reflexivity.
  - split; intros m Hm; discriminate.
Defined.

(** C10, as stated, fails: the bound [1.2] is not of the form
    digits.digits.digits, yet with it as minimum the version [1.2.3]
    passes. *)
Lemma malformed_bound_accepted :
  (forall v, ~ denotes ascii_only (py "1.2") v) /\
  version_check ascii_only DEFAULT_MAX_STR_DIGITS (py "1.2.3") (py "1.2") []
    []
  = (Returned true, []).
Proof.
  split; [|vm_compute; reflexivity].
  intros v H. apply denotes_three_pieces in H. vm_compute in H.
  discriminate.
Qed.

Lemma version_check_total_witness :
  fst (version_check ascii_only DEFAULT_MAX_STR_DIGITS (py "1.2.3")
         (py "1.x.0") [] [])
  = Returned false.
Proof.
  apply (proj1 (proj2 (proj2 (version_check_total ascii_only
                                DEFAULT_MAX_STR_DIGITS
                                (py "1.2.3") (py "1.x.0") [] [])))).
  - discriminate.
  - exists (py "x"). split; [|vm_compute; reflexivity].
    vm_compute. right. left. reflexivity.
Defined.


(** * Further properties *)

(** ** One rule at work *)

Lemma lits_match (p : pystr) (re : regex) (g : groups) (pos : nat)
    (s : pystr) :
  match_here (lits p ++ re) g pos (p ++ s)
  = match_here re g (pos + length p)%nat s.
Proof.
  revert pos. induction p as [|c p IH]; intros pos.
  - cbn [lits map app length]. now rewrite Nat.add_0_r.
  - rewrite lits_cons. cbn [app match_here cclass_matches length].
    rewrite N.eqb_refl, IH. now rewrite Nat.add_succ_r.
Qed.

Lemma starts_with_app (p s : pystr) : starts_with p (p ++ s) = true.
Proof.
  induction p as [|c p IH]; [reflexivity|].
  cbn [app starts_with]. now rewrite N.eqb_refl, IH.
Qed.

Lemma starts_with_inv (p s : pystr) :
  starts_with p s = true -> exists t, s = p ++ t.
Proof.
  revert s. induction p as [|c p IH]; intros s H; [now exists s|].
  destruct s as [|x s]; [discriminate|]. cbn [starts_with] in H.
  apply andb_prop in H as [Hc H]. apply N.eqb_eq in Hc as ->.
  destruct (IH s H) as [t ->]. now exists t.
Qed.

Lemma not_question (a : pystr) :
  forallb (fun c => negb (N.eqb c QUESTION)) a
  = forallb (cclass_matches (CNot [QUESTION; QUESTION])) a.
Proof.
  induction a as [|c a IH]; [reflexivity|].
  cbn [forallb cclass_matches existsb]. rewrite IH.
  now destruct (N.eqb c QUESTION).
Qed.

Lemma not_rbrace (x : pystr) :
  forallb (fun c => negb (N.eqb c RBRACE)) x
  = forallb (cclass_matches (CNot [RBRACE])) x.
Proof.
  induction x as [|c x IH]; [reflexivity|].
  cbn [forallb cclass_matches existsb]. rewrite IH.
  now destruct (N.eqb c RBRACE).
Qed.

(** The shape of a match of the shared tail, with what its two runs are
    made of. *)
Lemma fallback_tail_match_inv (g : groups) (pos : nat) (s : pystr)
    (m : match_obj) :
  match_here fallback_tail g pos s = Some m ->
  exists a x rest,
    s = a ++ QUESTION :: QUESTION :: x ++ RBRACE :: rest /\
    a <> [] /\ forallb (fun c => negb (N.eqb c QUESTION)) a = true /\
    x <> [] /\ forallb (fun c => negb (N.eqb c RBRACE)) x = true.
Proof.
  unfold fallback_tail. cbn [match_here]. intros H.
  apply many_inv in H as (a & s1 & -> & Ha & Ha' & H).
  cbn [cclass_matches] in H.
  destruct s1 as [|q1 s1]; [discriminate|].
  destruct (N.eqb_spec q1 QUESTION) as [->|]; [|discriminate].
  destruct s1 as [|q2 s1]; [discriminate|].
  destruct (N.eqb_spec q2 QUESTION) as [->|]; [|discriminate].
  apply many_inv in H as (x & s2 & -> & Hx & Hx' & H).
  cbn [match_here cclass_matches] in H.
  destruct s2 as [|b rest]; [discriminate|].
  destruct (N.eqb_spec b RBRACE) as [->|]; [|discriminate].
  exists a, x, rest. rewrite not_question, not_rbrace. now repeat split.
Qed.

(** Conversely the tail matches every text of that shape, wherever it
    stands. *)
Lemma fallback_tail_match (g : groups) (pos : nat) (a x rest : pystr) :
  a <> [] -> forallb (fun c => negb (N.eqb c QUESTION)) a = true ->
  x <> [] -> forallb (fun c => negb (N.eqb c RBRACE)) x = true ->
  match_here fallback_tail g pos
    (a ++ QUESTION :: QUESTION :: x ++ RBRACE :: rest)
  = Some {| m_end := S (S (S (pos + length a)) + length x);
            m_groups :=
              {| g_open := Some (S (S (pos + length a)));
                 g_close := Some (S (S (pos + length a)) + length x)%nat |} |}.
Proof.
  intros Ha Ha' Hx Hx'. rewrite not_question in Ha'. rewrite not_rbrace in Hx'.
  unfold fallback_tail. cbn [match_here].
  apply many_run; [assumption | assumption | reflexivity |].
  cbn [match_here cclass_matches]. rewrite !N.eqb_refl.
  apply many_run; [assumption | assumption | reflexivity |].
  cbn [match_here cclass_matches g_open]. now rewrite N.eqb_refl.
Qed.

Section RuleAtWork.

Variable head : pystr.
Hypothesis head_plain :
  forallb (fun c => negb (N.eqb c BACKSLASH)) head = true.

(** Where the pattern matches, the rule writes the head, the fallback and
    the brace, and carries on after the match. *)
Lemma sub_from_at_match (whole : pystr) (pos : nat) (a x rest : pystr) :
  a <> [] -> forallb (fun c => negb (N.eqb c QUESTION)) a = true ->
  x <> [] -> forallb (fun c => negb (N.eqb c RBRACE)) x = true ->
  skipn pos whole = head ++ a ++ QUESTION :: QUESTION :: x ++ RBRACE :: rest ->
  sub_from (rule_pattern head) (keep_fallback head) whole pos 0
    (head ++ a ++ QUESTION :: QUESTION :: x ++ RBRACE :: rest)
  = head ++ x ++ [RBRACE]
    ++ sub_from (rule_pattern head) (keep_fallback head) whole
         (pos + (length head + length a + 2 + length x + 1)) 0 rest.
Proof using head_plain.
  intros Ha Ha' Hx Hx' Hw.
  set (s := head ++ a ++ QUESTION :: QUESTION :: x ++ RBRACE :: rest) in *.
  assert (Hm : match_here (rule_pattern head) no_groups pos s
               = Some {| m_end := S (S (S (pos + length head + length a))
                                     + length x);
                         m_groups :=
                           {| g_open :=
                                Some (S (S (pos + length head + length a)));
                              g_close :=
                                Some (S (S (pos + length head + length a))
                                      + length x)%nat |} |}).
  { unfold rule_pattern, s. rewrite lits_match.
    now apply fallback_tail_match. }
  assert (Hcut : s = (head ++ a ++ [QUESTION; QUESTION]) ++ x
                       ++ RBRACE :: rest)
    by (unfold s; rewrite <- !app_assoc; reflexivity).
  assert (Hcut' : s = (head ++ a ++ [QUESTION; QUESTION] ++ x ++ [RBRACE])
                        ++ rest)
    by (unfold s; rewrite <- !app_assoc; cbn [app];
        rewrite <- ?app_assoc; reflexivity).
  destruct s as [|c s'] eqn:Es.
  { destruct head; [destruct a; [contradiction|]|]; discriminate. }
  cbn [sub_from]. rewrite Hm. cbn [m_end].
  assert (Hg : group1 whole
                 {| m_end := S (S (S (pos + length head + length a))
                               + length x);
                    m_groups :=
                      {| g_open :=
                           Some (S (S (pos + length head + length a)));
                         g_close :=
                           Some (S (S (pos + length head + length a))
                                 + length x)%nat |} |} = x).
  { unfold group1. cbn [m_groups g_open g_close].
    replace (S (S (pos + length head + length a)) + length x
             - S (S (pos + length head + length a)))%nat
      with (length x) by lia.
    replace (S (S (pos + length head + length a)))
      with (pos + (length head + length a + 2))%nat by lia.
    rewrite <- drop_drop, Hw, Hcut.
    rewrite drop_app_length' by (rewrite !length_app; cbn [length]; lia).
    apply take_app_length. }
  rewrite Hg, (expand_keep_fallback head x head_plain).
  assert (Hne : Nat.eqb (S (S (S (pos + length head + length a))
                           + length x)) pos = false)
    by (apply Nat.eqb_neq; lia).
  rewrite Hne.
  assert (Hlen : length (c :: s')
                 = (length head + length a + 2 + length x + 1
                    + length rest)%nat).
  { rewrite Hcut', !length_app. cbn [length]. lia. }
  cbn [length] in Hlen.
  rewrite sub_from_skip by lia.
  assert (Hrest : skipn (S (S (S (pos + length head + length a))
                           + length x) - pos - 1) s' = rest).
  { change s' with (skipn 1 (c :: s')). rewrite drop_drop, Hcut'.
    apply drop_app_length'. rewrite !length_app. cbn [length]. lia. }
  rewrite Hrest, <- !app_assoc. cbn [app].
  replace (S pos + (S (S (S (pos + length head + length a)) + length x)
                    - pos - 1))%nat
    with (pos + (length head + length a + 2 + length x + 1))%nat by lia.
  reflexivity.
Qed.

(** The outcome of a match attempt does not depend on where the text
    stands. *)
Lemma rule_match_none_anywhere (pos pos' : nat) (s : pystr) :
  match_here (rule_pattern head) no_groups pos s = None ->
  match_here (rule_pattern head) no_groups pos' s = None.
Proof.
  intros Hn.
  destruct (match_here (rule_pattern head) no_groups pos' s) as [m|] eqn:Hm;
    [|reflexivity].
  unfold rule_pattern in *.
  apply lits_inv in Hm as (t & -> & Hm).
  apply fallback_tail_match_inv in Hm
    as (a & x & rest & -> & Ha & Ha' & Hx & Hx').
  rewrite lits_match, (fallback_tail_match _ _ a x rest Ha Ha' Hx Hx') in Hn.
  discriminate.
Qed.

(** What a rule makes of a text depends on the text alone, not on what
    was scanned before it. *)
Lemma sub_from_anywhere (n : nat) :
  forall (s whole whole' : pystr) (pos pos' : nat),
    (length s <= n)%nat ->
    skipn pos whole = s -> skipn pos' whole' = s ->
    sub_from (rule_pattern head) (keep_fallback head) whole pos 0 s
    = sub_from (rule_pattern head) (keep_fallback head) whole' pos' 0 s.
Proof using head_plain.
  induction n as [|n IH]; intros s whole whole' pos pos' Hn Hw Hw'.
  - destruct s; [|cbn in Hn; lia]. cbn [sub_from].
    destruct (match_here (rule_pattern head) no_groups pos []) as [m|] eqn:Hm.
    + unfold rule_pattern in Hm. apply lits_inv in Hm as (t & Ht & Hm).
      apply fallback_tail_match_inv in Hm as (a & x & rest & -> & _).
      symmetry in Ht. apply app_eq_nil in Ht as [_ Ht].
      apply app_eq_nil in Ht as [_ Ht]. discriminate.
    + now rewrite (rule_match_none_anywhere pos pos' [] Hm).
  - destruct (match_here (rule_pattern head) no_groups pos s) as [m|] eqn:Hm.
    + unfold rule_pattern in Hm. apply lits_inv in Hm as (t & -> & Hm).
      apply fallback_tail_match_inv in Hm
        as (a & x & rest & -> & Ha & Ha' & Hx & Hx').
      rewrite (sub_from_at_match whole pos a x rest Ha Ha' Hx Hx' Hw).
      rewrite (sub_from_at_match whole' pos' a x rest Ha Ha' Hx Hx' Hw').
      do 3 f_equal.
      assert (Hcut : head ++ a ++ QUESTION :: QUESTION :: x ++ RBRACE :: rest
                     = (head ++ a ++ [QUESTION; QUESTION] ++ x ++ [RBRACE])
                       ++ rest)
        by (rewrite <- !app_assoc; cbn [app]; rewrite <- ?app_assoc;
            reflexivity).
      assert (Hlen : length (head ++ a ++ [QUESTION; QUESTION] ++ x
                             ++ [RBRACE])
                     = (length head + length a + 2 + length x + 1)%nat)
        by (rewrite !length_app; cbn [length]; lia).
      apply IH.
      * rewrite Hcut, length_app, Hlen in Hn. destruct a; [contradiction|].
        cbn [length] in Hn. lia.
      * rewrite <- drop_drop, Hw, Hcut. now apply drop_app_length'.
      * rewrite <- drop_drop, Hw', Hcut. now apply drop_app_length'.
    + pose proof (rule_match_none_anywhere pos pos' s Hm) as Hm'.
      destruct s as [|c s']; cbn [sub_from]; rewrite Hm, Hm'; [reflexivity|].
      f_equal. apply IH.
      * cbn [length] in Hn. lia.
      * replace (S pos) with (pos + 1)%nat by lia.
        now rewrite <- drop_drop, Hw.
      * replace (S pos') with (pos' + 1)%nat by lia.
        now rewrite <- drop_drop, Hw'.
Qed.

(** A rule rewrites a function body at the start of the text and then the
    rest of the text on its own. *)
Lemma re_sub_at_match (a x rest : pystr) :
  a <> [] -> forallb (fun c => negb (N.eqb c QUESTION)) a = true ->
  x <> [] -> forallb (fun c => negb (N.eqb c RBRACE)) x = true ->
  re_sub (rule_pattern head) (keep_fallback head)
    (head ++ a ++ QUESTION :: QUESTION :: x ++ RBRACE :: rest)
  = head ++ x ++ [RBRACE]
    ++ re_sub (rule_pattern head) (keep_fallback head) rest.
Proof using head_plain.
  intros Ha Ha' Hx Hx'. unfold re_sub at 1.
  rewrite (sub_from_at_match _ 0 a x rest Ha Ha' Hx Hx' eq_refl).
  do 3 f_equal. unfold re_sub.
  apply (sub_from_anywhere (length rest)); [lia | | reflexivity].
  assert (Hcut : head ++ a ++ QUESTION :: QUESTION :: x ++ RBRACE :: rest
                 = (head ++ a ++ [QUESTION; QUESTION] ++ x ++ [RBRACE])
                   ++ rest)
    by (rewrite <- !app_assoc; cbn [app]; rewrite <- ?app_assoc;
        reflexivity).
  rewrite Hcut. apply drop_app_length'.
  rewrite !length_app. cbn [length]. lia.
Qed.

(** A character at which no occurrence of the head starts is copied. *)
Lemma re_sub_copy (c : N) (s : pystr) :
  starts_with head (c :: s) = false ->
  re_sub (rule_pattern head) (keep_fallback head) (c :: s)
  = c :: re_sub (rule_pattern head) (keep_fallback head) s.
Proof using head_plain.
  intros Hs. unfold re_sub at 1. cbn [sub_from].
  destruct (match_here (rule_pattern head) no_groups 0 (c :: s)) as [m|] eqn:Hm.
  - unfold rule_pattern in Hm. apply lits_inv in Hm as (t & Ht & _).
    rewrite Ht, starts_with_app in Hs. discriminate.
  - f_equal. unfold re_sub.
    apply (sub_from_anywhere (length s)); [lia | reflexivity | reflexivity].
Qed.

Lemma re_sub_prefix (pre s : pystr) :
  head_free head pre s = true ->
  re_sub (rule_pattern head) (keep_fallback head) (pre ++ s)
  = pre ++ re_sub (rule_pattern head) (keep_fallback head) s.
Proof using head_plain.
  unfold head_free. induction pre as [|c pre IH]; intros H; [reflexivity|].
  cbn [length seq forallb] in H. apply andb_prop in H as [Hc H].
  apply negb_true_iff in Hc. cbn [skipn app] in Hc.
  cbn [app]. rewrite (re_sub_copy c (pre ++ s) Hc). f_equal. apply IH.
  rewrite <- seq_shift in H. clear -H.
  induction (seq 0 (length pre)) as [|i l IHl]; [reflexivity|].
  cbn [map forallb] in *. apply andb_prop in H as [Hi H].
  cbn [skipn app] in Hi. now rewrite Hi, (IHl H).
Qed.

Lemma re_sub_function_body (pre a x rest : pystr) :
  head_free head pre
    (head ++ a ++ QUESTION :: QUESTION :: x ++ RBRACE :: rest) = true ->
  a <> [] -> forallb (fun c => negb (N.eqb c QUESTION)) a = true ->
  x <> [] -> forallb (fun c => negb (N.eqb c RBRACE)) x = true ->
  re_sub (rule_pattern head) (keep_fallback head)
    (pre ++ head ++ a ++ QUESTION :: QUESTION :: x ++ RBRACE :: rest)
  = pre ++ head ++ x ++ [RBRACE]
    ++ re_sub (rule_pattern head) (keep_fallback head) rest.
Proof using head_plain.
  intros Hfree Ha Ha' Hx Hx'.
  rewrite (re_sub_prefix pre _ Hfree).
  now rewrite (re_sub_at_match a x rest Ha Ha' Hx Hx').
Qed.

End RuleAtWork.


Lemma has_qq_suffix (p t : pystr) : has_qq (p ++ t) = false -> has_qq t = false.
Proof.
  induction p as [|c p IH]; intros H; [exact H|].
  apply IH. exact (has_qq_tail c _ H).
Qed.

Lemma rule_heads_plain (head : pystr) :
  In head rule_heads ->
  forallb (fun c => negb (N.eqb c BACKSLASH)) head = true.
Proof. intros [<- | [<- | []]]; reflexivity. Qed.

(** X1.  Each rule, applied to a text in which the first occurrence of its
    head opens a function body [<head><expr>??<fallback>}] (the expression
    non-empty and without [?], the fallback non-empty and without [}]),
    copies what precedes the head, replaces the body by
    [<head><fallback>}] and goes on rewriting what follows the brace. *)
Theorem rule_rewrites_function_body (head pre a x rest : pystr) :
  In head rule_heads ->
  head_free head pre
    (head ++ a ++ QUESTION :: QUESTION :: x ++ RBRACE :: rest) = true ->
  a <> [] -> forallb (fun c => negb (N.eqb c QUESTION)) a = true ->
  x <> [] -> forallb (fun c => negb (N.eqb c RBRACE)) x = true ->
  re_sub (rule_pattern head) (keep_fallback head)
    (pre ++ head ++ a ++ QUESTION :: QUESTION :: x ++ RBRACE :: rest)
  = pre ++ head ++ x ++ [RBRACE]
    ++ re_sub (rule_pattern head) (keep_fallback head) rest.
Proof.
  intros Hin. apply re_sub_function_body. now apply rule_heads_plain.
Qed.

Lemma rule_rewrites_function_body_witness :
  re_sub (rule_pattern getMacMachineId_head)
    (keep_fallback getMacMachineId_head)
    (py "var a=1;async getMacMachineId(){return this.id??(await f())}z()")
  = py "var a=1;async getMacMachineId(){return (await f())}z()".
Proof.
  apply (rule_rewrites_function_body getMacMachineId_head (py "var a=1;")
           (py "this.id") (py "(await f())") (py "z()")).
  - right. left. reflexivity.
  - vm_compute. reflexivity.
  - discriminate.
  - vm_compute. reflexivity.
  - discriminate.
  - vm_compute. reflexivity.
Defined.

(** X2.  The rule set on a script of the documented shape: when the first
    occurrence of [async getMachineId(){return ] opens a body
    [<expr>??<fallback>}] and the rewritten script contains no further
    [??], [patch_text] yields exactly the script with the body replaced by
    the fallback, and a second application changes nothing. *)
Theorem patch_text_documented_shape (pre a x rest : pystr) :
  head_free getMachineId_head pre
    (getMachineId_head ++ a ++ QUESTION :: QUESTION :: x ++ RBRACE :: rest)
  = true ->
  a <> [] -> forallb (fun c => negb (N.eqb c QUESTION)) a = true ->
  x <> [] -> forallb (fun c => negb (N.eqb c RBRACE)) x = true ->
  has_qq (pre ++ getMachineId_head ++ x ++ [RBRACE] ++ rest) = false ->
  let patched := pre ++ getMachineId_head ++ x ++ [RBRACE] ++ rest in
  patch_text
    (pre ++ getMachineId_head ++ a ++ QUESTION :: QUESTION :: x
     ++ RBRACE :: rest) = patched /\
  patch_text patched = patched.
Proof.
  intros Hfree Ha Ha' Hx Hx' Hq patched.
  assert (Hrest : has_qq rest = false).
  { apply (has_qq_suffix (pre ++ getMachineId_head ++ x ++ [RBRACE])).
    now rewrite <- !app_assoc. }
  split; [|now apply patch_text_no_qq].
  unfold patch_text, apply_patterns, patterns. cbn [fold_left fst snd].
  change getMachineId_pattern with (rule_pattern getMachineId_head).
  rewrite (re_sub_function_body getMachineId_head eq_refl pre a x rest
             Hfree Ha Ha' Hx Hx').
  rewrite (re_sub_no_match (rule_pattern getMachineId_head) _ rest)
    by (unfold re_search; now apply no_qq_no_search).
  apply re_sub_no_match. unfold re_search, getMacMachineId_pattern.
  now apply no_qq_no_search.
Qed.

Lemma patch_text_documented_shape_witness :
  patch_text (py "var a=1;async getMachineId(){return this.id??(await f())}z()")
  = py "var a=1;async getMachineId(){return (await f())}z()".
Proof.
  apply (proj1 (patch_text_documented_shape (py "var a=1;") (py "this.id")
                  (py "(await f())") (py "z()")
                  ltac:(vm_compute; reflexivity) ltac:(discriminate)
                  ltac:(vm_compute; reflexivity) ltac:(discriminate)
                  ltac:(vm_compute; reflexivity)
                  ltac:(vm_compute; reflexivity))).
Defined.

(** X3.  The rule set never lengthens a text, and the text keeps its
    length only when it is left unchanged: every rewrite removes
    characters. *)
Theorem patch_text_never_longer (text : pystr) :
  (length (patch_text text) <= length text)%nat /\
  (length (patch_text text) = length text <-> patch_text text = text).
Proof.
  unfold patch_text, apply_patterns, patterns. cbn [fold_left fst snd].
  pose proof (re_sub_length getMachineId_head eq_refl text) as [Hle1 Hlt1].
  pose proof (re_sub_length getMacMachineId_head eq_refl
                (re_sub getMachineId_pattern
                   (keep_fallback getMachineId_head) text)) as [Hle2 Hlt2].
  fold getMachineId_pattern getMacMachineId_pattern in *.
  split; [lia|]. split; [|intros ->; reflexivity].
  intros Hlen.
  destruct (re_search getMachineId_pattern text) eqn:H1;
    [specialize (Hlt1 eq_refl); lia|].
  rewrite (re_sub_no_match _ _ _ H1) in *.
  destruct (re_search getMacMachineId_pattern text) eqn:H2;
    [specialize (Hlt2 eq_refl); lia|].
  apply (re_sub_no_match _ _ _ H2).
Qed.

Lemma patch_text_never_longer_witness :
  patch_text (py "function foo(){return 1}") = py "function foo(){return 1}".
Proof.
  apply (proj1 (proj2 (patch_text_never_longer
                         (py "function foo(){return 1}")))).
  vm_compute. reflexivity.
Defined.

(** ** More on [version_check] *)

Lemma triple_lt_total (x y : Z * Z * Z) : ~ triple_lt x y -> triple_le y x.
Proof.
  destruct x as [[a b] c], y as [[a' b'] c']. unfold triple_le.
  cbn [triple_lt]. intros H.
  destruct (Z.eq_dec a a') as [->|]; [|left; lia].
  destruct (Z.eq_dec b b') as [->|]; [|left; lia].
  destruct (Z.eq_dec c c') as [->|]; [now right | left; lia].
Qed.

Lemma not_outside_within (lo hi : option (Z * Z * Z)) (v : Z * Z * Z) :
  is_below lo v = false -> is_above v hi = false -> within lo v hi.
Proof.
  intros Hb Ha. split; intros m ->; apply triple_lt_total; intros H.
  - assert (is_below (Some m) v = true)
      by (apply is_below_spec; now exists m).
    congruence.
  - assert (is_above v (Some m) = true)
      by (apply is_above_spec; now exists m).
    congruence.
Qed.

Lemma pair_lt_total (x y : Z * Z) : ~ pair_lt x y -> pair_le y x.
Proof.
  destruct x as [a b], y as [a' b']. unfold pair_le, pair_lt. cbn [fst snd].
  intros H. destruct (Z.eq_dec a a') as [->|]; [|left; lia].
  destruct (Z.eq_dec b b') as [->|]; [now right | left; lia].
Qed.

Lemma pair_lt_dec (x y : Z * Z) : pair_lt x y \/ ~ pair_lt x y.
Proof. unfold pair_lt. lia. Qed.

Lemma pair_le_not_lt (x y : Z * Z) : pair_le x y -> ~ pair_lt y x.
Proof.
  destruct x as [a b], y as [a' b']. unfold pair_le, pair_lt. cbn [fst snd].
  intros [H | [= -> ->]]; lia.
Qed.

Lemma tuple_lt_pair (a b c p q : Z) :
  tuple_lt [a; b; c] [p; q] = true <-> pair_lt (a, b) (p, q).
Proof.
  unfold pair_lt. cbn [tuple_lt fst snd].
  destruct (Z.eqb_spec a p), (Z.eqb_spec b q);
    rewrite ?Z.ltb_lt; try (split; [discriminate|]); lia.
Qed.

Lemma tuple_gt_pair (a b c p q : Z) :
  tuple_gt [a; b; c] [p; q] = true <-> pair_le (p, q) (a, b).
Proof.
  unfold pair_le, pair_lt. cbn [tuple_gt fst snd].
  destruct (Z.eqb_spec a p) as [->|Ha].
  - destruct (Z.eqb_spec b q) as [->|Hb].
    + split; [now right | reflexivity].
    + rewrite Z.gtb_gt. split.
      * intros H. left. lia.
      * intros [H | [= H]]; lia.
  - rewrite Z.gtb_gt. split.
    + intros H. left. lia.
    + intros [H | [= H1 H2]]; lia.
Qed.

Section VersionMore.

Variable cls : N -> uclass.
Variable lim : N.

Ltac run_check :=
  unfold version_check, try_except, version_check_body, bind, logger_error,
    ret in *;
  repeat (case_match;
          repeat match goal with
            | H : parse_version _ _ _ _ = _ |- _ =>
                rewrite parse_version_pure in H
            end;
          simplify_eq);
  cbn [fst snd] in *.

(** X4.  Which versions pass.  With bounds that are absent or well
    formed, [version_check] returns [True] exactly for the texts
    [major.minor.patch], possibly followed by one newline, whose numbers
    [int] converts and whose triple lies within the bounds. *)
Theorem version_check_accepts_iff (version min_version max_version : pystr)
    (lo hi : option (Z * Z * Z)) (tr : list event) :
  bound_denotes cls lim min_version lo ->
  bound_denotes cls lim max_version hi ->
  (fst (version_check cls lim version min_version max_version tr)
   = Returned true
   <-> exists t v,
         (version = t \/ version = t ++ [LF]) /\
         denotes cls t v /\ convertible cls lim t = true /\
         within lo v hi).
Proof.
  intros Hlo Hhi.
  assert (Hacc : forall t v,
            version = t \/ version = t ++ [LF] ->
            denotes cls t v -> convertible cls lim t = true ->
            accepted_as cls lim version v).
  { intros t v [-> | ->] Hv Hc;
      [now apply denotes_accepted | now apply newline_accepted]. }
  split.
  - destruct (re_match (version_pattern cls) version) as [m|] eqn:Hm.
    + destruct (version_pattern_inv cls version m Hm) as (t & v & Hv & Hs).
      destruct (convertible cls lim t) eqn:Hc.
      * rewrite (version_check_eval cls lim _ _ _ v lo hi tr
                   (Hacc t v Hs Hv Hc) Hlo Hhi).
        destruct (is_below lo v) eqn:Hb; [discriminate|].
        destruct (is_above v hi) eqn:Ha; [discriminate|].
        intros _. exists t, v. repeat split; try assumption;
          now apply (not_outside_within lo hi v).
      * now rewrite (version_check_unconvertible cls lim version t _ _ v tr
                       Hv Hs Hc).
    + now rewrite (version_check_bad_format cls lim _ _ _ tr Hm).
  - intros (t & v & Hs & Hv & Hc & Hin).
    rewrite (version_check_eval cls lim _ _ _ v lo hi tr
               (Hacc t v Hs Hv Hc) Hlo Hhi).
    now rewrite (within_not_below lo hi v Hin),
      (within_not_above lo hi v Hin).
Qed.

(** X5.  One record per refusal.  Whatever its arguments,
    [version_check] leaves the earlier events in place, logs nothing when
    it returns [True] and exactly one error record when it returns
    [False]. *)
Theorem version_check_logs_once (version min_version max_version : pystr)
    (tr : list event) :
  version_check cls lim version min_version max_version tr
  = (Returned true, tr)
  \/ exists r,
       version_check cls lim version min_version max_version tr
       = (Returned false, tr ++ [LogError r]).
Proof. run_check; eauto. Qed.

Lemma ints_two_pieces (p q : pystr) :
  digit_run cls p -> digit_run cls q ->
  convertible cls lim (p ++ DOT :: q) = true ->
  ints (int cls lim) (split_on DOT (p ++ DOT :: q))
  = Returned [run_value cls p; run_value cls q].
Proof.
  intros Hp Hq. unfold convertible.
  rewrite (split_on_piece DOT p) by apply (decimal_not_dot cls), Hp.
  rewrite (split_on_last DOT q) by apply (decimal_not_dot cls), Hq.
  cbn [forallb ints]. intros Hc.
  apply andb_prop in Hc as [Hcp Hc]. apply andb_prop in Hc as [Hcq _].
  apply negb_true_iff in Hcp, Hcq.
  now rewrite (int_digit_run cls lim p Hp), Hcp,
    (int_digit_run cls lim q Hq), Hcq.
Qed.

(** X6.  A bound of two pieces.  A bound [major.minor] is compared as a
    tuple of two integers, and a tuple that is a proper prefix counts as
    smaller: as a minimum it admits the versions whose (major, minor) is
    not below it; as a maximum it admits only the versions whose
    (major, minor) is strictly below it, so that [1.2.0] does not pass the
    maximum [1.2]. *)
Theorem two_piece_bound (version p q : pystr) (a b c : Z)
    (tr : list event) :
  denotes cls version (a, b, c) -> convertible cls lim version = true ->
  digit_run cls p -> digit_run cls q ->
  convertible cls lim (p ++ DOT :: q) = true ->
  (fst (version_check cls lim version (p ++ DOT :: q) [] tr) = Returned true
   <-> pair_le (run_value cls p, run_value cls q) (a, b)) /\
  (fst (version_check cls lim version [] (p ++ DOT :: q) tr) = Returned true
   <-> pair_lt (a, b) (run_value cls p, run_value cls q)).
Proof.
  intros Hv Hcv Hp Hq Hc.
  pose proof (denotes_accepted cls lim version (a, b, c) Hv Hcv) as Hacc.
  assert (Hb : bound_reads cls lim (p ++ DOT :: q)
                 (Some [run_value cls p; run_value cls q])).
  { right. split; [destruct p; discriminate|].
    eexists. split; [now apply ints_two_pieces | reflexivity]. }
  assert (Hn : bound_reads cls lim [] None) by (left; now split).
  rewrite (version_check_eval_lists cls lim version _ _ (a, b, c) _ _ tr
             Hacc Hb Hn).
  rewrite (version_check_eval_lists cls lim version _ _ (a, b, c) _ _ tr
             Hacc Hn Hb).
  cbn [is_below_list is_above_list triple_list].
  pose proof (tuple_lt_pair a b c (run_value cls p) (run_value cls q)) as Hlt.
  pose proof (tuple_gt_pair a b c (run_value cls p) (run_value cls q)) as Hgt.
  pose proof (pair_lt_total (a, b) (run_value cls p, run_value cls q)) as Ht.
  pose proof (pair_le_not_lt (run_value cls p, run_value cls q) (a, b)) as Hn'.
  split.
  - destruct (tuple_lt [a; b; c] [run_value cls p; run_value cls q]);
      cbn [fst].
    + split; [discriminate|]. intros H. destruct (Hn' H). now apply Hlt.
    + split; [|reflexivity]. intros _. apply Ht. intros H.
      apply Hlt in H. discriminate.
  - destruct (tuple_gt [a; b; c] [run_value cls p; run_value cls q]);
      cbn [fst].
    + split; [discriminate|]. intros H. destruct (Hn' (proj1 Hgt eq_refl) H).
    + split; [intros _|reflexivity].
      destruct (pair_lt_dec (a, b) (run_value cls p, run_value cls q))
        as [H | H]; [exact H|].
      apply Ht, Hgt in H. discriminate.
Qed.

End VersionMore.

Lemma version_check_accepts_iff_witness :
  fst (version_check ascii_only DEFAULT_MAX_STR_DIGITS (py "0.45.0" ++ [LF])
         (py "0.45.0") [] [])
  = Returned true.
Proof.
  refine (proj2 (version_check_accepts_iff ascii_only DEFAULT_MAX_STR_DIGITS
                   (py "0.45.0" ++ [LF]) (py "0.45.0") []
                   (Some (0, 45, 0)%Z) None [] _ _) _).
  - right. exists (0, 45, 0)%Z.
    split; [exact denotes_0_45_0 | split; reflexivity].
  - left. split; reflexivity.
  - exists (py "0.45.0"), (0, 45, 0)%Z.
    split; [now right|]. split; [exact denotes_0_45_0|].
    split; [reflexivity|].
    split; intros m Hm; [|discriminate].
    injection Hm as <-. now right.
Defined.

Lemma two_piece_bound_witness :
  fst (version_check ascii_only DEFAULT_MAX_STR_DIGITS (py "1.2.3") []
         (py "1.3") [])
  = Returned true.
Proof.
  refine (proj2 (proj2 (two_piece_bound ascii_only DEFAULT_MAX_STR_DIGITS
                          (py "1.2.3") [49] [51] 1 2 3 [] denotes_1_2_3
                          eq_refl _ _ eq_refl)) _).
  - split; [discriminate | reflexivity].
  - split; [discriminate | reflexivity].
  - right. split; [reflexivity|]. vm_compute. reflexivity.
Defined.

(** ** More on [modify_main_js] *)

Section OtherNames.

Variable env : sysenv.
Variables (main : pystr) (fs : fsys) (tr : list event).
Variables (im : N) (original : file) (text bytes : pystr).

Hypothesis Hmain : fs !! main = Some (Reg im original).
Hypothesis Hfresh : fs !! tmp_name env = None.
Hypothesis Hdecode : decode_utf8 env (f_data original) = Some text.
Hypothesis Hencode : encode_default env (patch_text text) = Some bytes.
Hypothesis Hsame : samefile fs main (backup_target env fs main) = false.
Hypothesis Hdir : os_path_isdir fs (backup_target env fs main) = false.
Hypothesis Htarget : backup_target env fs main <> tmp_name env.



End OtherNames.





(** X9.  A failed close is rolled back completely.  When the last flush
    of the temporary file fails, [modify_main_js] returns [False] having
    removed the temporary file: the files are exactly those there were
    before the run. *)
Theorem close_failure_rolled_back (env : sysenv) (main : pystr) (fs : fsys)
    (tr : list event) (original : file) (text bytes : pystr) (n : nat) :
  file_at fs main = Some original ->
  fs !! tmp_name env = None ->
  decode_utf8 env (f_data original) = Some text ->
  encode_default env (patch_text text) = Some bytes ->
  injected env = CloseFails n ->
  exists st,
    modify_main_js env main fs tr = (Returned false, st) /\
    files st = fs /\
    events st = tr ++ [LogError (ModifyFailed IOError)].
Proof.
  intros Hfile Hfresh Hdec Henc Hf.
  destruct (file_at_inv fs main original Hfile) as [im Hmain].
  eexists. split; [|split].
  - exact (modify_main_js_close_fails env main fs tr im original text bytes
             Hmain Hfresh Hdec Henc n Hf).
  - reflexivity.
  - reflexivity.
Qed.

Lemma close_failure_rolled_back_witness :
  exists st,
    modify_main_js (demo_env (CloseFails 3)) demo_main
      (demo_fs "async getMachineId(){return a??b}") [] = (Returned false, st) /\
    files st = demo_fs "async getMachineId(){return a??b}" /\
    events st = [] ++ [LogError (ModifyFailed IOError)].
Proof.
  apply (close_failure_rolled_back (demo_env (CloseFails 3)) demo_main
           (demo_fs "async getMachineId(){return a??b}") []
           (demo_file "async getMachineId(){return a??b}")
           (py "async getMachineId(){return a??b}")
           (patch_text (py "async getMachineId(){return a??b}")) 3).
  - unfold file_at. now rewrite demo_main_present.
  - apply demo_tmp_fresh.
  - reflexivity.
  - reflexivity.
  - reflexivity.
Defined.

(** ** More on [get_cursor_paths] *)

Lemma probe_bases_raises (h : host) (join : pystr -> list pystr -> pystr)
    (package main : pystr) (bases : list pystr) (tr tr' : list event)
    (e : exn) :
  probe_bases h join package main bases tr = (Raised e, tr') ->
  e = InstallationNotFound.
Proof.
  revert tr. induction bases as [|b bases IH]; intros tr.
  - cbn [probe_bases]. unfold raise. congruence.
  - cbn [probe_bases]. unfold bind, os_path_exists, ret.
    destruct (path_exists h (join b [package])); [discriminate|].
    apply IH.
Qed.

(** X10.  The outcomes of [get_cursor_paths].  On a system other than
    Darwin, Windows and Linux it raises the unsupported-system error
    without asking anything; on Darwin it returns the two paths under the
    application bundle, again without asking anything; and whatever the
    host, the only errors it raises are that one and, on Linux, the one
    for a missing installation: subscripting [paths_map] never fails. *)
Theorem get_cursor_paths_outcomes (h : host) (tr : list event) :
  (~ In (platform_system h) supported_systems ->
   get_cursor_paths h tr
   = (Raised (UnsupportedSystem (platform_system h)), tr)) /\
  (platform_system h = py "Darwin" ->
   get_cursor_paths h tr
   = (Returned
        (py "/Applications/Cursor.app/Contents/Resources/app/package.json",
         py "/Applications/Cursor.app/Contents/Resources/app/out/main.js"),
      tr)) /\
  (forall e tr',
      get_cursor_paths h tr = (Raised e, tr') ->
      (e = UnsupportedSystem (platform_system h) /\
       ~ In (platform_system h) supported_systems /\ tr' = tr) \/
      (e = InstallationNotFound /\ platform_system h = py "Linux")).
Proof.
  unfold get_cursor_paths, paths_map, supported_systems.
  cbn [dict_lookup In].
  destruct (pystr_eqb (platform_system h) (py "Darwin")) eqn:Hd.
  { apply bool_decide_eq_true in Hd. rewrite Hd.
    split; [intros H; exfalso; apply H; now left|].
    split; [intros _; vm_compute; reflexivity|].
    intros e tr'. vm_compute. discriminate. }
  destruct (pystr_eqb (platform_system h) (py "Windows")) eqn:Hw.
  { apply bool_decide_eq_true in Hw. rewrite Hw.
    split; [intros H; exfalso; apply H; right; now left|].
    split; [discriminate|].
    intros e tr'. change (pystr_eqb (py "Windows") (py "Linux")) with false.
    cbn [e_base e_package e_main subscript]. unfold bind, ret.
    discriminate. }
  destruct (pystr_eqb (platform_system h) (py "Linux")) eqn:Hl.
  { apply bool_decide_eq_true in Hl.
    split; [intros H; exfalso; apply H; right; right; now left|].
    split; [intros E; rewrite E in Hl; discriminate|].
    intros e tr' H. right. split; [|exact Hl].
    cbn [subscript e_bases e_package e_main] in H. unfold bind, ret in H.
    exact (probe_bases_raises _ _ _ _ _ _ _ _ H). }
  apply bool_decide_eq_false in Hd, Hw, Hl.
  assert (Hnot : ~ (py "Darwin" = platform_system h \/
                    py "Windows" = platform_system h \/
                    py "Linux" = platform_system h \/ False))
    by (intros [E | [E | [E | []]]]; congruence).
  split; [reflexivity|]. split; [intros E; congruence|].
  intros e tr' [= <- <-]. left. now repeat split.
Qed.

Lemma get_cursor_paths_outcomes_witness :
  get_cursor_paths
    {| platform_system := py "FreeBSD";
       environ := fun _ => None;
       path_exists := fun _ => true;
       path_isfile := fun _ => true;
       access_w_ok := fun _ => true |} []
  = (Raised (UnsupportedSystem (py "FreeBSD")), []).
Proof.
  refine (proj1 (get_cursor_paths_outcomes
                   {| platform_system := py "FreeBSD";
                      environ := fun _ => None;
                      path_exists := fun _ => true;
                      path_isfile := fun _ => true;
                      access_w_ok := fun _ => true |} []) _).
  vm_compute. intros [E | [E | [E | []]]]; discriminate.
Defined.
